(** * app-prototyping-kit: the mock resource client, its query hooks,
      the creation form and the UI store

    A shallow embedding of the TypeScript sources

    - [lib/api.ts]        (the in-memory [mockItems] collection and [api.items]),
    - [hooks/useItems.ts] (the query and mutation hooks),
    - [pages/CreateItemPage.tsx] (the validation schema and the submit handler),
    - [stores/uiStore.ts] (the sidebar flag),

    followed by the properties that the specification states about them.

    Conventions of the embedding.

    - A JavaScript string is a [string]; every [ascii] stands for one UTF-16
      code unit, so [String.length] is the [.length] the validation schema
      compares against (strings with units above 255 are outside the model).
    - A promise is modelled at the moment it settles, as a [Settled] value.
      Every operation of the client is [await delay(ms)] followed by a body
      that contains no further [await]; on the single JavaScript thread that
      body runs atomically, so an operation is one transition of the
      collection and the delay contributes latency only.
    - [Math.random()] and [new Date()] are ambient inputs.  The base-36
      rendering of the random draw and the ISO rendering of the clock are
      passed to [create] explicitly, in an [Ambient] record. *)

From Stdlib Require Import Ascii String.
From stdpp Require Import base decidable option list gmap strings.

Open Scope string_scope.
Open Scope list_scope.

(** ** Data model ([lib/api.ts]) *)

(** [status: 'active' | 'inactive'] *)
Inductive ItemStatus := active | inactive.

#[global] Instance ItemStatus_eq_dec : EqDecision ItemStatus.
Proof. solve_decision. Defined.

(** [export interface Item] *)
Record Item := mkItem {
  id : string;
  name : string;
  description : string;
  status : ItemStatus;
  createdAt : string;
}.

#[global] Instance Item_eq_dec : EqDecision Item.
Proof. solve_decision. Defined.

(** [Omit<Item, 'id' | 'createdAt'>], the argument of [create]; it is also
    the shape [z.infer<typeof createItemSchema>] of the validated form. *)
Record NewItem := mkNewItem {
  n_name : string;
  n_description : string;
  n_status : ItemStatus;
}.

(** [Partial<Item>], the argument of [update]: every field of [Item],
    the identifier included, may be present ([Some]) or absent ([None]).
    A field present with the value [undefined] is outside the model. *)
Record PartialItem := mkPartial {
  p_id : option string;
  p_name : option string;
  p_description : option string;
  p_status : option ItemStatus;
  p_createdAt : option string;
}.

(** [new Error(message)] *)
Inductive JsError := Error (message : string).

#[global] Instance JsError_eq_dec : EqDecision JsError.
Proof. solve_decision. Defined.

(** A settled promise. *)
Inductive Settled (A : Type) :=
  | Fulfilled (a : A)
  | Rejected (e : JsError).
Arguments Fulfilled {A} a.
Arguments Rejected {A} e.

Definition is_fulfilled {A} (r : Settled A) : bool :=
  match r with Fulfilled _ => true | Rejected _ => false end.

(** The ambient inputs that [create] reads. *)
Record Ambient := mkAmbient {
  random36 : string;   (* Math.random().toString(36) *)
  nowISO : string;     (* new Date().toISOString() *)
}.

(** [s.substring(n)]: the units of [s] from index [n] on, empty when
    [s] has at most [n] units. *)
Fixpoint substring_from (n : nat) (s : string) : string :=
  match n, s with
  | O, _ => s
  | S n', String _ rest => substring_from n' rest
  | S _, EmptyString => EmptyString
  end.

(** The digits of a base-36 rendering. *)
Definition is_base36_digit (c : ascii) : bool :=
  let n := nat_of_ascii c in
  (((48 <=? n) && (n <=? 57)) || ((97 <=? n) && (n <=? 122)))%nat.

Fixpoint all_base36 (s : string) : bool :=
  match s with
  | EmptyString => true
  | String c rest => is_base36_digit c && all_base36 rest
  end.

(** The strings [x.toString(36)] can produce for a number [0 <= x < 1]:
    ["0"] itself, or ["0."] followed by at least one base-36 digit. *)
Definition is_random36 (s : string) : bool :=
  match s with
  | String "0" EmptyString => true
  | String "0" (String "." (String c rest)) =>
      is_base36_digit c && all_base36 rest
  | _ => false
  end.

(** The spread [{ ...item, ...data }]: a field present in [data] wins,
    an absent one keeps the value of [item]. *)
Definition spread (item : Item) (data : PartialItem) : Item :=
  {| id := default (id item) (p_id data);
     name := default (name item) (p_name data);
     description := default (description item) (p_description data);
     status := default (status item) (p_status data);
     createdAt := default (createdAt item) (p_createdAt data) |}.

(** The fields of an [Item], to speak of "each field named in [data]". *)
Inductive Field := F_id | F_name | F_description | F_status | F_createdAt.

Inductive Value :=
  | VString (s : string)
  | VStatus (st : ItemStatus).

(** [item[f]] *)
Definition field (f : Field) (item : Item) : Value :=
  match f with
  | F_id => VString (id item)
  | F_name => VString (name item)
  | F_description => VString (description item)
  | F_status => VStatus (status item)
  | F_createdAt => VString (createdAt item)
  end.

(** [data[f]] when [f in data] *)
Definition named (f : Field) (data : PartialItem) : option Value :=
  match f with
  | F_id => VString <$> p_id data
  | F_name => VString <$> p_name data
  | F_description => VString <$> p_description data
  | F_status => VStatus <$> p_status data
  | F_createdAt => VString <$> p_createdAt data
  end.

(** ** The resource client ([api.items]) *)

(** An operation of the client: a transition of the module-level
    [mockItems] that settles with a value or an error. *)
Definition Client (A : Type) : Type := list Item → Settled A * list Item.

Definition throw {A} (e : JsError) : Client A := λ items, (Rejected e, items).
Definition read : Client (list Item) := λ items, (Fulfilled items, items).
Definition write (items' : list Item) : Client unit := λ _, (Fulfilled (), items').

#[global] Instance Client_ret : MRet Client :=
  λ A (a : A) items, (Fulfilled a, items).
#[global] Instance Client_fmap : FMap Client :=
  λ A B (f : A → B) (m : Client A) items,
    match m items with
    | (Fulfilled a, items') => (Fulfilled (f a), items')
    | (Rejected e, items') => (Rejected e, items')
    end.
#[global] Instance Client_bind : MBind Client :=
  λ A B (k : A → Client B) (m : Client A) items,
    match m items with
    | (Fulfilled a, items') => k a items'
    | (Rejected e, items') => (Rejected e, items')
    end.

(** The seed of [let mockItems: Item[]].  Each of the two records takes its
    [createdAt] from the clock when the module is loaded. *)
Definition seedItems (loadedAt1 loadedAt2 : string) : list Item :=
  [ {| id := "1"; name := "First Item";
       description := "This is a sample item";
       status := active; createdAt := loadedAt1 |};
    {| id := "2"; name := "Second Item";
       description := "Another sample item";
       status := inactive; createdAt := loadedAt2 |} ].

Definition not_found : JsError := Error "Item not found".

Module api.
Module items.

(** [list: async () => mockItems] *)
Definition list_ : Client (list Item) := read.

(** [get]: [mockItems.find((item) => item.id === id)], an error when
    nothing is found. *)
Definition get (i : string) : Client Item :=
  mockItems ← read;
  match list_find (λ item, id item = i) mockItems with
  | Some (_, item) => mret item
  | None => throw not_found
  end.

(** [create]: the new record takes its fields from [data], its
    identifier from the random draw and its stamp from the clock, and
    [mockItems = [...mockItems, newItem]]. *)
Definition create (env : Ambient) (data : NewItem) : Client Item :=
  let newItem :=
    {| id := substring_from 7 (random36 env);
       name := n_name data;
       description := n_description data;
       status := n_status data;
       createdAt := nowISO env |} in
  mockItems ← read;
  write (mockItems ++ [newItem]) ;;
  mret newItem.

(** [update]: [findIndex], an error for index [-1], otherwise
    [mockItems[index] = { ...mockItems[index], ...data }] and the
    element now at [index] is returned. *)
Definition update (i : string) (data : PartialItem) : Client Item :=
  mockItems ← read;
  match list_find (λ item, id item = i) mockItems with
  | None => throw not_found
  | Some (index, current) =>
      let merged := spread current data in
      write (<[index := merged]> mockItems) ;;
      mret merged
  end.

(** [delete]: [mockItems = mockItems.filter((item) => item.id !== id)];
    the promise resolves to [undefined]. *)
Definition delete (i : string) : Client unit :=
  mockItems ← read;
  write (filter (λ item, id item ≠ i) mockItems).

End items.
End api.

(** The identifiers of a collection, in order. *)
Definition ids (items : list Item) : list string := id <$> items.

(** ** The query-cache layer ([hooks/useItems.ts])

    The hooks are written against [@tanstack/react-query], an npm
    dependency whose code is not part of the sources.  Its operations
    ([useQuery], [useMutation], [invalidateQueries]) are modelled below from
    the contract the specification gives for the query-cache layer; the
    hooks themselves are embedded from [hooks/useItems.ts]. *)

Definition QueryKey : Type := list string.

(** What the two query functions of the hooks produce. *)
Inductive QueryData :=
  | ItemsData (items : list Item)
  | ItemData (item : Item).

(** A cache entry: the last value fetched, the last error, and the
    staleness flag set by invalidation. *)
Record Query := mkQuery {
  data : option QueryData;
  error : option JsError;
  isInvalidated : bool;
}.

(** What the layer did, in order (a ghost trace, used to state ordering). *)
Inductive Event :=
  | Fetched (key : QueryKey)
  | MutationSettled (ok : bool)
  | Invalidated (key : QueryKey).

#[global] Instance Event_eq_dec : EqDecision Event.
Proof. solve_decision. Defined.

(** The collection of the client together with the query client. *)
Record App := mkApp {
  mockItems : list Item;
  queries : gmap QueryKey Query;
  trace : list Event;
}.

Definition invalidate (q : Query) : Query :=
  {| data := data q; error := error q; isInvalidated := true |}.

(** Modelled from the spec: [queryClient.invalidateQueries({ queryKey })]
    of the missing library.  "Invalidation: marking cached data stale so
    the next read re-fetches from the resource client."  A filter key
    selects every cached query whose key starts with it, so the
    collection key also selects the keys of the single records. *)
Definition invalidateQueries (queryKey : QueryKey) (a : App) : App :=
  {| mockItems := mockItems a;
     queries :=
       map_imap (λ key q,
         Some (if bool_decide (queryKey `prefix_of` key) then invalidate q else q))
         (queries a);
     trace := trace a ++ [Invalidated queryKey] |}.

(** The options the hooks pass to [useQuery]. *)
Record QueryOptions := mkQueryOptions {
  queryKey : QueryKey;
  queryFn : Client QueryData;
  enabled : bool;
}.

(** What a page reads from [useQuery]. *)
Record QueryResult := mkQueryResult {
  r_data : option QueryData;
  r_error : option JsError;
}.

Definition result_of (q : option Query) : QueryResult :=
  {| r_data := q ≫= data; r_error := q ≫= error |}.

Definition is_fresh (q : option Query) : bool :=
  match q with
  | Some q => negb (isInvalidated q)
  | None => false
  end.

(** Modelled from the spec: the read operation ([useQuery]) of the missing
    library, taken at the point where its fetch, if any, has settled.
    "Given a cache key and a fetch function, return cached data if fresh,
    otherwise invoke the fetch function and update the cache."  A
    disabled query never fetches.  A failed fetch keeps the prior data
    and records the error.  An entry stays fresh until it is invalidated
    (no expiry by time, the assumption under which a cached value lives
    longest). *)
Definition useQuery (o : QueryOptions) (a : App) : QueryResult * App :=
  let cached := queries a !! queryKey o in
  if negb (enabled o) || is_fresh cached then (result_of cached, a)
  else
    let '(r, items') := queryFn o (mockItems a) in
    let q' :=
      match r with
      | Fulfilled d => {| data := Some d; error := None; isInvalidated := false |}
      | Rejected e => {| data := cached ≫= data; error := Some e; isInvalidated := false |}
      end in
    (result_of (Some q'),
     {| mockItems := items';
        queries := <[queryKey o := q']> (queries a);
        trace := trace a ++ [Fetched (queryKey o)] |}).

(** The options the hooks pass to [useMutation]: no hook gives [onError]
    or [onSettled]. *)
Record MutationOptions (V R : Type) := mkMutationOptions {
  mutationFn : V → Client R;
  onSuccess : R → V → App → App;
}.
Arguments mutationFn {V R} _ _ _.
Arguments onSuccess {V R} _ _ _ _.

(** Modelled from the spec: the write operation ([useMutation] and its
    [mutateAsync]) of the missing library.  "Accepts a mutating function;
    on successful completion, invalidates one or more read cache keys; on
    failure, leaves cache untouched and surfaces the error to the caller."
    [onSuccess] runs once the mutating function has settled, and only
    when it fulfilled. *)
Definition mutateAsync {V R} (o : MutationOptions V R) (variables : V) (a : App)
    : Settled R * App :=
  let '(r, items') := mutationFn o variables (mockItems a) in
  let settled :=
    {| mockItems := items';
       queries := queries a;
       trace := trace a ++ [MutationSettled (is_fulfilled r)] |} in
  match r with
  | Fulfilled x => (Fulfilled x, onSuccess o x variables settled)
  | Rejected e => (Rejected e, settled)
  end.

Definition ITEMS_QUERY_KEY : QueryKey := ["items"].

(** [useItems] *)
Definition useItems : QueryOptions :=
  {| queryKey := ITEMS_QUERY_KEY;
     queryFn := ItemsData <$> api.items.list_;
     enabled := true |}.

(** [useItem(id)], with [enabled: !!id] *)
Definition useItem (i : string) : QueryOptions :=
  {| queryKey := ITEMS_QUERY_KEY ++ [i];
     queryFn := ItemData <$> api.items.get i;
     enabled := bool_decide (i ≠ "") |}.

(** [useCreateItem] *)
Definition useCreateItem (env : Ambient) : MutationOptions NewItem Item :=
  {| mutationFn := api.items.create env;
     onSuccess := λ _ _, invalidateQueries ITEMS_QUERY_KEY |}.

(** [useUpdateItem]; the variables are [{ id, data }]. *)
Definition useUpdateItem : MutationOptions (string * PartialItem) Item :=
  {| mutationFn := λ variables, api.items.update variables.1 variables.2;
     onSuccess := λ _ variables a,
       invalidateQueries (ITEMS_QUERY_KEY ++ [variables.1])
         (invalidateQueries ITEMS_QUERY_KEY a) |}.

(** [useDeleteItem] *)
Definition useDeleteItem : MutationOptions string unit :=
  {| mutationFn := api.items.delete;
     onSuccess := λ _ _, invalidateQueries ITEMS_QUERY_KEY |}.

(** One invocation of a mutation hook, with its variables. *)
Inductive Mutation :=
  | CreateItem (env : Ambient) (data : NewItem)
  | UpdateItem (i : string) (data : PartialItem)
  | DeleteItem (i : string).

(** The outcome of an invocation, with the payload dropped. *)
Definition forget {A} (r : Settled A) : Settled unit :=
  match r with
  | Fulfilled _ => Fulfilled ()
  | Rejected e => Rejected e
  end.

Definition mutate (m : Mutation) (a : App) : Settled unit * App :=
  match m with
  | CreateItem env data => prod_map forget (λ a, a) (mutateAsync (useCreateItem env) data a)
  | UpdateItem i data => prod_map forget (λ a, a) (mutateAsync useUpdateItem (i, data) a)
  | DeleteItem i => prod_map forget (λ a, a) (mutateAsync useDeleteItem i a)
  end.

(** The mutating function of an invocation, run on the collection alone. *)
Definition mutationFn_of (m : Mutation) : Client unit :=
  match m with
  | CreateItem env data => api.items.create env data ;; mret ()
  | UpdateItem i data => api.items.update i data ;; mret ()
  | DeleteItem i => api.items.delete i
  end.

(** The keys the [onSuccess] of the invoked hook invalidates, in order. *)
Definition invalidated_keys (m : Mutation) : list QueryKey :=
  match m with
  | CreateItem _ _ => [ITEMS_QUERY_KEY]
  | UpdateItem i _ => [ITEMS_QUERY_KEY; ITEMS_QUERY_KEY ++ [i]]
  | DeleteItem _ => [ITEMS_QUERY_KEY]
  end.

(** The invalidations of a hook, one after the other. *)
Definition invalidate_each (keys : list QueryKey) (a : App) : App :=
  foldl (λ a k, invalidateQueries k a) a keys.

(** The application when the module has just been loaded: the seed
    records and an empty cache. *)
Definition seedApp : App :=
  {| mockItems := seedItems "2024-01-01T00:00:00.000Z" "2024-01-01T00:00:00.000Z"; queries := ∅; trace := [] |}.

(** What a read shows once a fetch has settled: the value the client
    returned and no error, or the error the client raised next to the
    data that was cached before. *)
Definition settled_read (prior : option QueryData) (outcome : Settled QueryData)
    : QueryResult :=
  match outcome with
  | Fulfilled d => {| r_data := Some d; r_error := None |}
  | Rejected e => {| r_data := prior; r_error := Some e |}
  end.

(** ** The creation form ([pages/CreateItemPage.tsx]) *)

(** The raw values of the form: two text inputs and the select, whose
    value is [undefined] ([None]) until one is chosen. *)
Record FormValues := mkFormValues {
  f_name : string;
  f_description : string;
  f_status : option ItemStatus;
}.

(** [formState.errors]: at most one message for each field. *)
Record FieldErrors := mkFieldErrors {
  e_name : option string;
  e_description : option string;
  e_status : option string;
}.

Definition no_errors : FieldErrors :=
  {| e_name := None; e_description := None; e_status := None |}.

(** [z.string().min(lo, lo_message).max(hi, hi_message)]: the first
    failing check gives the message of the field. *)
Definition z_string (lo : nat) (lo_message : string) (hi : nat) (hi_message : string)
    (s : string) : option string :=
  if (String.length s <? lo)%nat then Some lo_message
  else if (hi <? String.length s)%nat then Some hi_message
  else None.

(** [z.enum(['active', 'inactive'], { required_error })] on a value that
    is one of the two members or missing. *)
Definition z_enum (required_error : string) (v : option ItemStatus) : option string :=
  match v with
  | Some _ => None
  | None => Some required_error
  end.

(** [createItemSchema], as the resolver uses it: the field errors when a
    check fails, the parsed data otherwise. *)
Definition createItemSchema (v : FormValues) : FieldErrors + NewItem :=
  let name_error :=
    z_string 3 "Name must be at least 3 characters"
             50 "Name must be less than 50 characters" (f_name v) in
  let description_error :=
    z_string 10 "Description must be at least 10 characters"
             200 "Description must be less than 200 characters" (f_description v) in
  let status_error := z_enum "Please select a status" (f_status v) in
  match name_error, description_error, f_status v with
  | None, None, Some st =>
      inr {| n_name := f_name v; n_description := f_description v; n_status := st |}
  | _, _, _ =>
      inl {| e_name := name_error;
             e_description := description_error;
             e_status := status_error |}
  end.

(** [type ToastVariant] and the argument of [toast], [Omit<Toast, 'id'>]
    ([components/ui/Toast.tsx]). *)
Inductive ToastVariant := v_default | v_success | v_error | v_warning.

Record Toast := mkToast {
  title : string;
  t_description : option string;
  variant : ToastVariant;
}.

(** What the page can change: the application, the errors of the form,
    the toasts shown and the current route. *)
Record Page := mkPage {
  app : App;
  errors : FieldErrors;
  toasts : list Toast;
  location : string;
}.

Definition toast (t : Toast) (p : Page) : Page :=
  {| app := app p; errors := errors p; toasts := toasts p ++ [t]; location := location p |}.

Definition navigate (to : string) (p : Page) : Page :=
  {| app := app p; errors := errors p; toasts := toasts p; location := to |}.

(** [onSubmit]: [try { await createItem.mutateAsync(data); toast; navigate }
    catch { toast }]. *)
Definition onSubmit (env : Ambient) (data : NewItem) (p : Page) : Page :=
  let '(r, a') := mutateAsync (useCreateItem env) data (app p) in
  let p' := {| app := a'; errors := errors p; toasts := toasts p; location := location p |} in
  match r with
  | Fulfilled _ =>
      navigate "/items"
        (toast {| title := "Item created";
                  t_description := Some (n_name data +:+ " has been created successfully");
                  variant := v_success |} p')
  | Rejected _ =>
      toast {| title := "Error";
               t_description := Some "Failed to create item";
               variant := v_error |} p'
  end.

(** Modelled from the spec: [handleSubmit] of the missing form library
    ([react-hook-form] with its schema resolver).  "Validation is
    synchronous, field-level, against a fixed schema"; "validation errors
    are field-scoped and block submission": the handler runs only on the
    parsed data of a valid form, and an invalid form only has its field
    errors set. *)
Definition handleSubmit (resolver : FormValues → FieldErrors + NewItem)
    (onValid : NewItem → Page → Page) (v : FormValues) (p : Page) : Page :=
  match resolver v with
  | inl errs =>
      {| app := app p; errors := errs; toasts := toasts p; location := location p |}
  | inr data =>
      onValid data
        {| app := app p; errors := no_errors; toasts := toasts p; location := location p |}
  end.

(** The form of [CreateItemPage]: [<form onSubmit={handleSubmit(onSubmit)}>]
    with [resolver: zodResolver(createItemSchema)]. *)
Definition submit (env : Ambient) : FormValues → Page → Page :=
  handleSubmit createItemSchema (onSubmit env).

(** The creation page as it is first shown, on the seed application. *)
Definition seedPage : Page :=
  {| app := seedApp; errors := no_errors; toasts := []; location := "/items/new" |}.

(** ** The UI store ([stores/uiStore.ts]) *)

(** The two closures the store keeps next to its flag. *)
Inductive UIAction := toggleSidebar_fn | setSidebarOpen_fn.

(** [interface UIState] *)
Record UIState := mkUIState {
  sidebarOpen : bool;
  toggleSidebar_field : UIAction;
  setSidebarOpen_field : UIAction;
}.

(** [Partial<UIState>], the argument of [set]. *)
Record PartialUIState := mkPartialUIState {
  u_sidebarOpen : option bool;
  u_toggleSidebar : option UIAction;
  u_setSidebarOpen : option UIAction;
}.

(** Modelled from the spec: [set] of the missing store library
    ([zustand]).  The store is "a small set of independent flags": the
    entries that [partial] names take its values and the others stay
    ([Object.assign({}, state, partial)]); [partial] is given directly or
    computed from the current state. *)
Definition set_ (partial : UIState → PartialUIState) (state : UIState) : UIState :=
  {| sidebarOpen := default (sidebarOpen state) (u_sidebarOpen (partial state));
     toggleSidebar_field :=
       default (toggleSidebar_field state) (u_toggleSidebar (partial state));
     setSidebarOpen_field :=
       default (setSidebarOpen_field state) (u_setSidebarOpen (partial state)) |}.

Module useUIStore.

(** The state [create] builds: [sidebarOpen: true] and the two actions. *)
Definition initial : UIState :=
  {| sidebarOpen := true;
     toggleSidebar_field := toggleSidebar_fn;
     setSidebarOpen_field := setSidebarOpen_fn |}.

(** [toggleSidebar: () => set((state) => ({ sidebarOpen: !state.sidebarOpen }))] *)
Definition toggleSidebar : UIState → UIState :=
  set_ (λ state,
    {| u_sidebarOpen := Some (negb (sidebarOpen state));
       u_toggleSidebar := None; u_setSidebarOpen := None |}).

(** [setSidebarOpen: (open) => set({ sidebarOpen: open })] *)
Definition setSidebarOpen (open : bool) : UIState → UIState :=
  set_ (λ _,
    {| u_sidebarOpen := Some open;
       u_toggleSidebar := None; u_setSidebarOpen := None |}).

End useUIStore.

(** ** String helpers ([lib/utils.ts]) *)

(** [c.toUpperCase()] for one code unit of the model.  The letters
    [a]-[z] and the accented letters [0xE0]-[0xFE] (the division sign
    [0xF7] apart) move down by [0x20]; every other unit stays, except
    the three whose upper case is not a single unit of the model
    ([0xB5], [0xDF] and [0xFF]), which [simple_upper] excludes. *)
Definition toUpperCase_unit (c : ascii) : ascii :=
  let n := nat_of_ascii c in
  if (((97 <=? n) && (n <=? 122))
      || ((224 <=? n) && (n <=? 254) && negb (n =? 247)))%nat
  then ascii_of_nat (n - 32)
  else c.

Definition simple_upper (c : ascii) : bool :=
  let n := nat_of_ascii c in
  negb ((n =? 181) || (n =? 223) || (n =? 255))%nat.

(** A string whose first unit, if any, is within [simple_upper]. *)
Definition first_simple (s : string) : bool :=
  match s with
  | EmptyString => true
  | String c _ => simple_upper c
  end.

(** [s.toUpperCase()] *)
Fixpoint toUpperCase (s : string) : string :=
  match s with
  | EmptyString => EmptyString
  | String c rest => String (toUpperCase_unit c) (toUpperCase rest)
  end.

(** [s.charAt(n)]: the unit at index [n] as a string, empty past the end. *)
Definition charAt (n : nat) (s : string) : string :=
  match String.get n s with
  | Some c => String c EmptyString
  | None => EmptyString
  end.

(** [capitalize]: [str.charAt(0).toUpperCase() + str.slice(1)] *)
Definition capitalize (str : string) : string :=
  toUpperCase (charAt 0 str) +:+ substring_from 1 str.

(** The string an [ItemStatus] is at run time. *)
Definition status_text (st : ItemStatus) : string :=
  match st with
  | active => "active"
  | inactive => "inactive"
  end.

(** ** The toast list ([components/ui/Toast.tsx]) *)

(** The argument of the provider's [toast]: [Omit<Toast, 'id'>], whose
    [description] and [variant] are optional. *)
Record ToastProps := mkToastProps {
  tp_title : string;
  tp_description : option string;
  tp_variant : option ToastVariant;
}.

(** [interface Toast], as the provider stores it: the variant is filled in. *)
Record ToastEntry := mkToastEntry {
  te_id : string;
  te_title : string;
  te_description : option string;
  te_variant : ToastVariant;
}.

Module ToastProvider.

(** [toast]: the identifier comes from a random draw, as for the records
    of the client; [variant = 'default'] when none is given; the entry is
    appended, [setToasts((prev) => [...prev, entry])]. *)
Definition toast (random36 : string) (props : ToastProps)
    (toasts : list ToastEntry) : list ToastEntry :=
  toasts ++ [ {| te_id := substring_from 7 random36;
                 te_title := tp_title props;
                 te_description := tp_description props;
                 te_variant := default v_default (tp_variant props) |} ].

(** [removeToast]: [setToasts((prev) => prev.filter((t) => t.id !== id))] *)
Definition removeToast (i : string) (toasts : list ToastEntry) : list ToastEntry :=
  filter (λ t, te_id t ≠ i) toasts.

End ToastProvider.

(** ** The items page ([pages/ItemsPage.tsx]) *)

(** What the page can change: the application, the record picked for
    deletion ([useState<Item | null>(null)]) and the toasts shown. *)
Record ItemsPageState := mkItemsPageState {
  ip_app : App;
  itemToDelete : option Item;
  ip_toasts : list Toast;
}.

Module ItemsPage.

Definition setItemToDelete (v : option Item) (p : ItemsPageState) : ItemsPageState :=
  {| ip_app := ip_app p; itemToDelete := v; ip_toasts := ip_toasts p |}.

Definition toast (t : Toast) (p : ItemsPageState) : ItemsPageState :=
  {| ip_app := ip_app p; itemToDelete := itemToDelete p; ip_toasts := ip_toasts p ++ [t] |}.

(** The confirmation dialog: [open={!!itemToDelete}]. *)
Definition modalOpen (p : ItemsPageState) : bool :=
  match itemToDelete p with
  | Some _ => true
  | None => false
  end.

(** [onOpenChange={(open) => !open && setItemToDelete(null)}] *)
Definition onOpenChange (open : bool) (p : ItemsPageState) : ItemsPageState :=
  if open then p else setItemToDelete None p.

(** [handleDelete]: nothing without a picked record; otherwise
    [try { await deleteItem.mutateAsync(itemToDelete.id); toast;
    setItemToDelete(null) } catch { toast }]. *)
Definition handleDelete (p : ItemsPageState) : ItemsPageState :=
  match itemToDelete p with
  | None => p
  | Some picked =>
      let '(r, a') := mutateAsync useDeleteItem (id picked) (ip_app p) in
      let p' := {| ip_app := a'; itemToDelete := itemToDelete p; ip_toasts := ip_toasts p |} in
      match r with
      | Fulfilled _ =>
          setItemToDelete None
            (toast {| title := "Item deleted";
                      t_description := Some (name picked +:+ " has been removed");
                      variant := v_success |} p')
      | Rejected _ =>
          toast {| title := "Error";
                   t_description := Some "Failed to delete item";
                   variant := v_error |} p'
      end
  end.

End ItemsPage.

Example get_seed_1 :
  fst (api.items.get "1" (seedItems "t" "t")) =
  Fulfilled {| id := "1"; name := "First Item";
               description := "This is a sample item";
               status := active; createdAt := "t" |}.
Proof. reflexivity. Qed.

Example get_seed_absent :
  api.items.get "3" (seedItems "t" "t") = (Rejected (Error "Item not found"), seedItems "t" "t").
Proof. reflexivity. Qed.

Example create_half :
  id <$> (api.items.create (mkAmbient "0.i" "t") (mkNewItem "Widget" "" active) (seedItems "t" "t")).2
  = ["1"; "2"; ""].
Proof. reflexivity. Qed.

Example update_seed :
  name <$> (api.items.update "2" (mkPartial None (Some "X") None None None) (seedItems "t" "t")).2
  = ["First Item"; "X"].
Proof. reflexivity. Qed.

Example delete_seed :
  ids (api.items.delete "1" (seedItems "t" "t")).2 = ["2"].
Proof. reflexivity. Qed.

(** ** The resource client: what each operation does *)

Section client.
Implicit Types (items : list Item) (i : string) (item : Item).

Lemma get_unfold i items :
  api.items.get i items =
    match list_find (λ item, id item = i) items with
    | Some (_, item) => (Fulfilled item, items)
    | None => (Rejected not_found, items)
    end.
Proof.
  unfold api.items.get, mbind, Client_bind, read; cbn.
  destruct (list_find _ items) as [[? ?]|]; reflexivity.
Qed.

Lemma update_unfold i data items :
  api.items.update i data items =
    match list_find (λ item, id item = i) items with
    | Some (index, current) =>
        (Fulfilled (spread current data), <[index := spread current data]> items)
    | None => (Rejected not_found, items)
    end.
Proof.
  unfold api.items.update, mbind, Client_bind, read; cbn.
  destruct (list_find _ items) as [[? ?]|]; reflexivity.
Qed.

Lemma create_unfold env data items :
  api.items.create env data items =
    let newItem :=
      {| id := substring_from 7 (random36 env); name := n_name data;
         description := n_description data; status := n_status data;
         createdAt := nowISO env |} in
    (Fulfilled newItem, items ++ [newItem]).
Proof. reflexivity. Qed.

Lemma delete_unfold i items :
  api.items.delete i items = (Fulfilled (), filter (λ item, id item ≠ i) items).
Proof. reflexivity. Qed.

Lemma find_absent i items :
  list_find (λ item, id item = i) items = None ↔ ∀ item, item ∈ items → id item ≠ i.
Proof. rewrite list_find_None, Forall_forall. reflexivity. Qed.

Lemma absent_ids i items :
  (∀ item, item ∈ items → id item ≠ i) ↔ i ∉ ids items.
Proof.
  unfold ids. rewrite list_elem_of_fmap. split.
  - intros H (item & -> & Hin). exact (H item Hin eq_refl).
  - intros H item Hin Heq. apply H. exists item. split; [symmetry|]; assumption.
Qed.

Lemma get_absent i items :
  (∀ item, item ∈ items → id item ≠ i) →
  api.items.get i items = (Rejected not_found, items).
Proof. intros H. rewrite get_unfold. apply find_absent in H. rewrite H. reflexivity. Qed.

(** The record [update] returns is the one now stored at the index found. *)
Lemma update_returns_stored i data items new items' :
  api.items.update i data items = (Fulfilled new, items') →
  ∃ index current,
    list_find (λ item, id item = i) items = Some (index, current) ∧
    new = spread current data ∧
    items' = <[index := new]> items ∧
    items' !! index = Some new.
Proof.
  rewrite update_unfold.
  destruct (list_find _ items) as [[index current]|] eqn:Hfind; [|discriminate].
  intros [= <- <-]. exists index, current. split_and!; try reflexivity.
  apply list_find_Some in Hfind as (Hlook & _ & _).
  apply list_lookup_insert_eq. eapply lookup_lt_Some; eassumption.
Qed.

Lemma filter_absent i items :
  (∀ item, item ∈ items → id item ≠ i) →
  filter (λ item, id item ≠ i) items = items.
Proof.
  induction items as [|item items IH]; intros H; [reflexivity|].
  rewrite filter_cons_True by (apply H; left).
  f_equal. apply IH. intros item' Hin. apply H. right. assumption.
Qed.

End client.

(** ** The resource client: the stated properties *)

(** C1, as stated, fails: a draw of [0.5] renders as ["0.i"], whose
    substring from index 7 is empty, so two creations that draw it give two
    records with the same (empty) identifier. *)
Lemma create_identifier_collides :
  let env := {| random36 := "0.i"; nowISO := "2024-01-01T00:00:00.000Z" |} in
  let data := {| n_name := "Widget"; n_description := ""; n_status := active |} in
  let items := (api.items.create env data (seedItems "2024-01-01T00:00:00.000Z" "2024-01-01T00:00:00.000Z")).2 in
  is_random36 (random36 env) = true ∧
  ∃ newItem earlier,
    (api.items.create env data items).1 = Fulfilled newItem ∧
    earlier ∈ items ∧ id earlier = id newItem.
Proof.
  cbn zeta. split; [reflexivity|].
  eexists _, _. split; [reflexivity|]. split; [|reflexivity].
  cbn. do 2 right. left.
Qed.

(** C1 (amended): [create] always fulfils with a record that takes its
    fields from the input, its identifier from the random draw (the
    substring from index 7 of its base-36 rendering) and its stamp from the
    clock; the collection becomes the prior sequence with that record
    appended, so a following [list] is one longer and contains it.  The
    identifier is distinct from those already in the collection exactly
    when the drawn string is not one of them. *)
Theorem create_appends_new_record (env : Ambient) (data : NewItem) (items : list Item) :
  ∃ newItem,
    api.items.create env data items = (Fulfilled newItem, items ++ [newItem]) ∧
    id newItem = substring_from 7 (random36 env) ∧
    name newItem = n_name data ∧
    description newItem = n_description data ∧
    status newItem = n_status data ∧
    createdAt newItem = nowISO env ∧
    api.items.list_ (items ++ [newItem]) = (Fulfilled (items ++ [newItem]), items ++ [newItem]) ∧
    length (items ++ [newItem]) = S (length items) ∧
    newItem ∈ items ++ [newItem] ∧
    ((∀ item, item ∈ items → id item ≠ id newItem) ↔
       substring_from 7 (random36 env) ∉ ids items).
Proof.
  eexists. split; [apply create_unfold|]. cbn.
  split_and!; try reflexivity.
  - rewrite length_app. cbn. lia.
  - apply elem_of_app. right. left.
  - apply absent_ids.
Qed.

(** C2, as stated, fails: [data] may name the identifier, and then the
    record is no longer found under the identifier it was updated by. *)
Lemma update_then_get_rejects :
  let items := seedItems "2024-01-01T00:00:00.000Z" "2024-01-01T00:00:00.000Z" in
  let data := {| p_id := Some "9"; p_name := None; p_description := None;
                 p_status := None; p_createdAt := None |} in
  is_fulfilled (api.items.update "1" data items).1 = true ∧
  (api.items.get "1" (api.items.update "1" data items).2).1 = Rejected (Error "Item not found").
Proof. split; reflexivity. Qed.

(** C2 (amended): when [data] does not name the identifier, or names the
    one the record already has, an [update] of a present identifier
    fulfils, and [get] of that identifier then returns the record [update]
    returned, in which each field named in [data] has the value given and
    every other field has the value it had before. *)
Theorem update_then_get (items : list Item) (i : string) (data : PartialItem) (old : Item) :
  (api.items.get i items).1 = Fulfilled old →
  p_id data = None ∨ p_id data = Some i →
  ∃ new items',
    api.items.update i data items = (Fulfilled new, items') ∧
    api.items.get i items' = (Fulfilled new, items') ∧
    ∀ f, field f new = default (field f old) (named f data).
Proof.
  rewrite get_unfold, update_unfold.
  destruct (list_find _ items) as [[index current]|] eqn:Hfind; [|discriminate].
  cbn. intros [= ->] Hid.
  apply list_find_Some in Hfind as (Hlook & Hold & Hfirst).
  assert (Hnew : id (spread old data) = i).
  { destruct Hid as [Hn|Hs]; cbn; rewrite ?Hn, ?Hs; cbn; [exact Hold|reflexivity]. }
  eexists _, _. split; [reflexivity|]. split.
  - rewrite get_unfold.
    assert (Hfind' : list_find (λ item, id item = i) (<[index := spread old data]> items)
                     = Some (index, spread old data)).
    { apply list_find_Some. split_and!.
      - apply list_lookup_insert_eq. eapply lookup_lt_Some; eassumption.
      - exact Hnew.
      - intros j y Hj Hlt. rewrite list_lookup_insert_ne in Hj by lia.
        eapply Hfirst; eassumption. }
    rewrite Hfind'. reflexivity.
  - intros []; cbn; match goal with |- context [default _ (?g <$> ?o)] => destruct o end;
      reflexivity.
Qed.

Lemma update_then_get_witness :
  ∃ new items',
    api.items.update "2" (mkPartial None (Some "X") None None None) (seedItems "t" "t")
      = (Fulfilled new, items') ∧
    api.items.get "2" items' = (Fulfilled new, items') ∧
    ∀ f, field f new
         = default (field f (mkItem "2" "Second Item" "Another sample item" inactive "t"))
                   (named f (mkPartial None (Some "X") None None None)).
Proof.
  apply (update_then_get (seedItems "t" "t") "2" (mkPartial None (Some "X") None None None)).
  - reflexivity.
  - left. reflexivity.
Defined.

(** C3: [get] leaves the collection as it is; it fulfils with a record of
    the collection whose identifier is the one asked for (the first such
    record) whenever there is one, and it rejects with "Item not found"
    exactly when no record of the collection has that identifier. *)
Theorem get_found_or_not_found (items : list Item) (i : string) :
  (api.items.get i items).2 = items ∧
  (∀ item, (api.items.get i items).1 = Fulfilled item ↔
      ∃ index, items !! index = Some item ∧ id item = i ∧
               ∀ j earlier, items !! j = Some earlier → j < index → id earlier ≠ i) ∧
  ((∃ item, item ∈ items ∧ id item = i) ↔ is_fulfilled (api.items.get i items).1 = true) ∧
  ((api.items.get i items).1 = Rejected (Error "Item not found") ↔
      ∀ item, item ∈ items → id item ≠ i).
Proof.
  rewrite get_unfold.
  destruct (list_find _ items) as [[index found]|] eqn:Hfind; cbn.
  - pose proof Hfind as (Hlook & Hid & Hfirst)%list_find_Some.
    split_and!; [reflexivity| | |].
    + intros item. split.
      * intros [= <-]. exists index. split_and!; assumption.
      * intros (index' & Hlook' & Hid' & Hfirst').
        assert (Hsame : list_find (λ item, id item = i) items = Some (index', item))
          by (apply list_find_Some; split_and!; assumption).
        rewrite Hfind in Hsame. injection Hsame as _ ->. reflexivity.
    + split; [reflexivity|]. intros _. exists found.
      split; [eapply list_elem_of_lookup_2; eassumption|assumption].
    + split; [discriminate|]. intros Habsent. exfalso.
      apply (Habsent found); [eapply list_elem_of_lookup_2; eassumption|assumption].
  - pose proof (proj1 (find_absent i items) Hfind) as Habsent.
    split_and!; [reflexivity| | |].
    + intros item. split; [discriminate|].
      intros (index & Hlook & Hid & _). exfalso.
      apply (Habsent item); [eapply list_elem_of_lookup_2; eassumption|assumption].
    + split; [|discriminate]. intros (item & Hin & Hid). exfalso.
      exact (Habsent item Hin Hid).
    + split; [intros _; assumption|reflexivity].
Qed.

(** C4: an [update] of an identifier that no record has rejects with
    "Item not found" and leaves the collection as it was, so a following
    [list] returns the collection of before the call. *)
Theorem update_absent_rejects (items : list Item) (i : string) (data : PartialItem) :
  (∀ item, item ∈ items → id item ≠ i) →
  api.items.update i data items = (Rejected (Error "Item not found"), items) ∧
  (api.items.list_ (api.items.update i data items).2).1 = Fulfilled items.
Proof.
  intros Habsent%find_absent. rewrite update_unfold, Habsent. split; reflexivity.
Qed.

Lemma update_absent_rejects_witness :
  api.items.update "nonexistent-id" (mkPartial None (Some "X") None None None) (seedItems "t" "t")
    = (Rejected (Error "Item not found"), seedItems "t" "t") ∧
  (api.items.list_
     (api.items.update "nonexistent-id" (mkPartial None (Some "X") None None None)
        (seedItems "t" "t")).2).1 = Fulfilled (seedItems "t" "t").
Proof.
  apply (update_absent_rejects (seedItems "t" "t") "nonexistent-id").
  intros item Hin. cbn in Hin.
  apply elem_of_cons in Hin as [->|Hin]; [discriminate|].
  apply elem_of_cons in Hin as [->|Hin]; [discriminate|].
  apply elem_of_nil in Hin. destruct Hin.
Defined.

(** C5: [delete] always fulfils; it keeps, in order, exactly the records
    whose identifier differs from the one given, so it changes nothing
    when no record has it; deleting a second time changes nothing more;
    and a [get] of the identifier right after rejects with
    "Item not found". *)
Theorem delete_removes_and_is_idempotent (items : list Item) (i : string) :
  (api.items.delete i items).1 = Fulfilled () ∧
  (api.items.delete i items).2 = filter (λ item, id item ≠ i) items ∧
  (∀ item, item ∈ (api.items.delete i items).2 ↔ item ∈ items ∧ id item ≠ i) ∧
  ((api.items.delete i items).2 = items ↔ ∀ item, item ∈ items → id item ≠ i) ∧
  api.items.delete i (api.items.delete i items).2
    = (Fulfilled (), (api.items.delete i items).2) ∧
  api.items.get i (api.items.delete i items).2
    = (Rejected (Error "Item not found"), (api.items.delete i items).2).
Proof.
  rewrite delete_unfold. cbn.
  assert (Hgone : ∀ item, item ∈ filter (λ item, id item ≠ i) items → id item ≠ i).
  { intros item Hin. apply list_elem_of_filter in Hin. tauto. }
  split_and!.
  - reflexivity.
  - reflexivity.
  - intros item. rewrite list_elem_of_filter. tauto.
  - split.
    + intros Hsame item Hin. rewrite <- Hsame in Hin. exact (Hgone item Hin).
    + apply filter_absent.
  - rewrite delete_unfold. f_equal. apply filter_absent. exact Hgone.
  - apply get_absent. exact Hgone.
Qed.

(** C9: the data of an [update] may name the identifier, and the merge
    then overwrites the identifier of the stored record; when the new
    identifier is that of another record of the collection, the
    identifiers of the collection are no longer distinct. *)
Theorem update_overwrites_identifier
    (items : list Item) (a b : string) (data : PartialItem) :
  a ∈ ids items → b ∈ ids items → a ≠ b → p_id data = Some b →
  ∃ new items',
    api.items.update a data items = (Fulfilled new, items') ∧
    id new = b ∧
    new ∈ items' ∧
    ¬ NoDup (ids items').
Proof.
  intros Ha Hb Hab Hdata. rewrite update_unfold.
  destruct (list_find _ items) as [[index current]|] eqn:Hfind.
  2: { exfalso. apply (proj1 (absent_ids a items)); [|exact Ha].
       apply find_absent. exact Hfind. }
  apply list_find_Some in Hfind as (Hlook & Hcur & _).
  pose proof (lookup_lt_Some _ _ _ Hlook) as Hlt.
  assert (Hnew : id (spread current data) = b) by (cbn; rewrite Hdata; reflexivity).
  eexists _, _. split; [reflexivity|]. split; [exact Hnew|]. split.
  - eapply list_elem_of_lookup_2. apply list_lookup_insert_eq. exact Hlt.
  - unfold ids in *. rewrite list_fmap_insert, Hnew.
    apply list_elem_of_lookup in Hb as [jb Hjb].
    assert (Hne : index ≠ jb).
    { intros <-. rewrite list_lookup_fmap, Hlook in Hjb. cbn in Hjb. congruence. }
    intros Hnodup. apply Hne.
    eapply (proj1 (NoDup_alt _) Hnodup _ _ b).
    + apply list_lookup_insert_eq. rewrite length_fmap. exact Hlt.
    + rewrite list_lookup_insert_ne by exact Hne. exact Hjb.
Qed.

Lemma update_overwrites_identifier_witness :
  NoDup (ids (seedItems "t" "t")) ∧
  ∃ new items',
    api.items.update "1" (mkPartial (Some "2") None None None None) (seedItems "t" "t")
      = (Fulfilled new, items') ∧
    id new = "2" ∧ new ∈ items' ∧ ¬ NoDup (ids items').
Proof.
  split.
  - cbn. apply NoDup_cons. split.
    + intros Hin. apply elem_of_cons in Hin as [Hin|Hin]; [discriminate|].
      apply elem_of_nil in Hin. destruct Hin.
    + apply NoDup_singleton.
  - apply (update_overwrites_identifier (seedItems "t" "t") "1" "2").
    + cbn. left.
    + cbn. right. left.
    + discriminate.
    + reflexivity.
Defined.

(** ** The UI store *)

Example toggle_initial :
  sidebarOpen (useUIStore.toggleSidebar useUIStore.initial) = false.
Proof. reflexivity. Qed.

(** C10: the store starts with the sidebar open; [toggleSidebar] negates
    the flag, so applying it twice gives back the state it started from;
    [setSidebarOpen open] leaves the flag equal to [open]; and neither
    changes the other entries of the store. *)
Theorem sidebar_toggle_involutive (state : UIState) (open : bool) :
  sidebarOpen useUIStore.initial = true ∧
  sidebarOpen (useUIStore.toggleSidebar state) = negb (sidebarOpen state) ∧
  useUIStore.toggleSidebar (useUIStore.toggleSidebar state) = state ∧
  sidebarOpen (useUIStore.setSidebarOpen open state) = open ∧
  toggleSidebar_field (useUIStore.toggleSidebar state) = toggleSidebar_field state ∧
  setSidebarOpen_field (useUIStore.toggleSidebar state) = setSidebarOpen_field state ∧
  toggleSidebar_field (useUIStore.setSidebarOpen open state) = toggleSidebar_field state ∧
  setSidebarOpen_field (useUIStore.setSidebarOpen open state) = setSidebarOpen_field state.
Proof.
  destruct state as [flag t s]. cbn. split_and!; try reflexivity.
  unfold useUIStore.toggleSidebar, set_. cbn. rewrite negb_involutive. reflexivity.
Qed.

(** ** The query-cache layer *)

Section query_cache.
Implicit Types (a : App) (key : QueryKey) (keys : list QueryKey).

Lemma invalidateQueries_lookup k a key :
  queries (invalidateQueries k a) !! key =
    (λ q, if bool_decide (k `prefix_of` key) then invalidate q else q) <$> queries a !! key.
Proof.
  unfold invalidateQueries; cbn. rewrite map_lookup_imap.
  destruct (queries a !! key); reflexivity.
Qed.

Lemma invalidateQueries_stale k a key :
  k `prefix_of` key ∨ is_fresh (queries a !! key) = false →
  is_fresh (queries (invalidateQueries k a) !! key) = false.
Proof.
  rewrite invalidateQueries_lookup.
  destruct (queries a !! key) as [q|]; cbn; [|reflexivity].
  intros [Hpre|Hstale].
  - rewrite bool_decide_eq_true_2 by exact Hpre. reflexivity.
  - case_bool_decide; cbn; [reflexivity|exact Hstale].
Qed.

Lemma invalidate_each_mockItems keys a :
  mockItems (invalidate_each keys a) = mockItems a.
Proof.
  revert a. induction keys as [|k keys IH]; intros a; [reflexivity|].
  change (invalidate_each (k :: keys) a) with (invalidate_each keys (invalidateQueries k a)).
  rewrite IH. reflexivity.
Qed.

Lemma invalidate_each_trace keys a :
  trace (invalidate_each keys a) = trace a ++ map Invalidated keys.
Proof.
  revert a. induction keys as [|k keys IH]; intros a.
  - cbn. rewrite app_nil_r. reflexivity.
  - change (invalidate_each (k :: keys) a) with (invalidate_each keys (invalidateQueries k a)).
    rewrite IH. cbn. rewrite <- app_assoc. reflexivity.
Qed.

Lemma invalidate_each_stale keys a key :
  (∃ k, k ∈ keys ∧ k `prefix_of` key) ∨ is_fresh (queries a !! key) = false →
  is_fresh (queries (invalidate_each keys a) !! key) = false.
Proof.
  revert a. induction keys as [|k keys IH]; intros a.
  - intros [(k & Hin & _)|Hstale]; [apply elem_of_nil in Hin; destruct Hin|exact Hstale].
  - change (invalidate_each (k :: keys) a) with (invalidate_each keys (invalidateQueries k a)).
    intros [(k' & Hin & Hpre)|Hstale]; apply IH.
    + apply elem_of_cons in Hin as [->|Hin].
      * right. apply invalidateQueries_stale. left. exact Hpre.
      * left. exists k'. split; assumption.
    + right. apply invalidateQueries_stale. right. exact Hstale.
Qed.

(** An invocation of a hook: the mutating function runs on the
    collection; when it fulfils, the keys of the hook are invalidated;
    when it rejects, nothing else happens. *)
Lemma mutate_unfold m a :
  mutate m a =
    match mutationFn_of m (mockItems a) with
    | (Fulfilled _, items') =>
        (Fulfilled (),
         invalidate_each (invalidated_keys m)
           {| mockItems := items'; queries := queries a;
              trace := trace a ++ [MutationSettled true] |})
    | (Rejected e, items') =>
        (Rejected e,
         {| mockItems := items'; queries := queries a;
            trace := trace a ++ [MutationSettled false] |})
    end.
Proof.
  destruct m as [env data|i data|i]; unfold mutate, mutateAsync, mutationFn_of.
  - reflexivity.
  - unfold mbind, Client_bind. cbn [mutationFn useUpdateItem fst snd].
    destruct (api.items.update i data (mockItems a)) as [[new|e] items']; reflexivity.
  - reflexivity.
Qed.

(** A stale or missing entry of an enabled query is fetched again: the
    read shows what the client answered, and after an error the data
    cached before as well. *)
Lemma useQuery_refetches o a :
  enabled o = true →
  is_fresh (queries a !! queryKey o) = false →
  (useQuery o a).1
  = settled_read (queries a !! queryKey o ≫= data) (queryFn o (mockItems a)).1.
Proof.
  intros Hen Hstale. unfold useQuery. rewrite Hen, Hstale. cbn.
  destruct (queryFn o (mockItems a)) as [[d|e] items']; reflexivity.
Qed.

(** Invalidation marks entries stale and keeps their data. *)
Lemma invalidate_each_data keys a key :
  queries (invalidate_each keys a) !! key ≫= data = queries a !! key ≫= data.
Proof.
  revert a. induction keys as [|k keys IH]; intros a; [reflexivity|].
  change (invalidate_each (k :: keys) a) with (invalidate_each keys (invalidateQueries k a)).
  rewrite IH, invalidateQueries_lookup.
  destruct (queries a !! key) as [q|]; cbn; [|reflexivity].
  case_bool_decide; reflexivity.
Qed.

(** Every invocation adds to the trace. *)
Lemma mutateAsync_traced {V R} (o : MutationOptions V R) (variables : V) a :
  (∀ r v a', (length (trace a') ≤ length (trace (onSuccess o r v a')))%nat) →
  (length (trace a) < length (trace (mutateAsync o variables a).2))%nat.
Proof.
  intros Hgrow. unfold mutateAsync.
  destruct (mutationFn o variables (mockItems a)) as [[x|e] items']; cbn.
  - eapply Nat.lt_le_trans; [|apply Hgrow]. cbn. rewrite length_app. cbn. lia.
  - rewrite length_app. cbn. lia.
Qed.

End query_cache.

Example create_then_list :
  let a' := (mutate (CreateItem (mkAmbient "0.4fzyo82mvyr" "t")
                       (mkNewItem "Widget" "A widget" active)) seedApp).2 in
  trace a' = [MutationSettled true; Invalidated ["items"]] ∧
  name <$> mockItems a' = ["First Item"; "Second Item"; "Widget"] ∧
  id <$> mockItems a' = ["1"; "2"; "82mvyr"].
Proof. split_and!; reflexivity. Qed.

(** C6, as stated, fails for reads of single records.  First: on a cache
    that holds record ["1"], a fulfilled deletion of ["1"] invalidates the
    entry, the fetch that follows is rejected, and the read still shows
    the deleted record as its data.  Second: a creation that draws [0.5]
    stores a record with the empty identifier; after a fulfilled update of
    that record, which invalidates both keys, the record query of the
    empty identifier is disabled and shows nothing, while the client
    finds the updated record. *)
Lemma read_after_mutation_can_be_stale :
  (let warm := (useQuery (useItem "1") seedApp).2 in
   let a' := (mutate (DeleteItem "1") warm).2 in
   (mutate (DeleteItem "1") warm).1 = Fulfilled () ∧
   ids (mockItems a') = ["2"] ∧
   (useQuery (useItem "1") a').1
   = {| r_data := Some (ItemData (mkItem "1" "First Item" "This is a sample item" active
                                    "2024-01-01T00:00:00.000Z"));
        r_error := Some (Error "Item not found") |}) ∧
  (let env := mkAmbient "0.i" "2024-01-02T00:00:00.000Z" in
   let created := (mutate (CreateItem env (mkNewItem "Widget" "A useful widget" active))
                     seedApp).2 in
   let m := UpdateItem "" (mkPartial None (Some "Gadget") None None None) in
   let a' := (mutate m created).2 in
   is_random36 (random36 env) = true ∧
   (mutate m created).1 = Fulfilled () ∧
   trace a' = trace created
              ++ [MutationSettled true; Invalidated ["items"]; Invalidated ["items"; ""]] ∧
   (api.items.get "" (mockItems a')).1
   = Fulfilled (mkItem "" "Gadget" "A useful widget" active "2024-01-02T00:00:00.000Z") ∧
   (useQuery (useItem "") a').1 = {| r_data := None; r_error := None |}).
Proof.
  cbv zeta. split.
  - split_and!; vm_compute; reflexivity.
  - split_and!; vm_compute; reflexivity.
Qed.

(** C6 (amended): when the mutating function of a create, update or
    delete hook fulfils, the invocation fulfils; the trace shows the
    settling of the mutating function first and the invalidations after
    it, the collection key for every hook and the key of the record as
    well for an update; every cached query under the collection key is
    then stale; a read of the list that follows shows the collection as
    the mutation left it; a read of a record with a non-empty identifier
    shows the record when the client finds one, and otherwise the error
    of the client next to the data cached before the mutation; and the
    record query of the empty identifier is disabled, so a read through
    it fetches nothing and shows what the cache holds. *)
Theorem successful_mutation_invalidates (m : Mutation) (a : App) :
  is_fulfilled (mutationFn_of m (mockItems a)).1 = true →
  (mutate m a).1 = Fulfilled () ∧
  mockItems (mutate m a).2 = (mutationFn_of m (mockItems a)).2 ∧
  trace (mutate m a).2
    = trace a ++ MutationSettled true :: map Invalidated (invalidated_keys m) ∧
  ITEMS_QUERY_KEY ∈ invalidated_keys m ∧
  (∀ i data, m = UpdateItem i data → ITEMS_QUERY_KEY ++ [i] ∈ invalidated_keys m) ∧
  (∀ key q, ITEMS_QUERY_KEY `prefix_of` key →
     queries (mutate m a).2 !! key = Some q → isInvalidated q = true) ∧
  (useQuery useItems (mutate m a).2).1
    = {| r_data := Some (ItemsData (mockItems (mutate m a).2)); r_error := None |} ∧
  (∀ i, i ≠ "" →
     (useQuery (useItem i) (mutate m a).2).1
     = settled_read (queries a !! queryKey (useItem i) ≫= data)
         ((ItemData <$> api.items.get i) (mockItems (mutate m a).2)).1) ∧
  useQuery (useItem "") (mutate m a).2
    = (result_of (queries (mutate m a).2 !! queryKey (useItem "")), (mutate m a).2).
Proof.
  intros Hok. rewrite mutate_unfold.
  destruct (mutationFn_of m (mockItems a)) as [[[]|e] items']; [|discriminate].
  cbn [fst snd].
  set (settled := {| mockItems := items'; queries := queries a;
                     trace := trace a ++ [MutationSettled true] |}).
  assert (Hstale : ∀ key, ITEMS_QUERY_KEY `prefix_of` key →
            is_fresh (queries (invalidate_each (invalidated_keys m) settled) !! key) = false).
  { intros key Hpre. apply invalidate_each_stale. left. exists ITEMS_QUERY_KEY.
    split; [|exact Hpre]. destruct m; cbn; left. }
  split_and!.
  - reflexivity.
  - apply invalidate_each_mockItems.
  - rewrite invalidate_each_trace. cbn. rewrite <- app_assoc. reflexivity.
  - destruct m; cbn; left.
  - intros i data ->. cbn. right. left.
  - intros key q Hpre Hq. specialize (Hstale key Hpre). rewrite Hq in Hstale.
    cbn in Hstale. destruct (isInvalidated q); [reflexivity|discriminate].
  - rewrite (useQuery_refetches useItems _ eq_refl (Hstale _ (reflexivity _))).
    cbn [queryFn useItems]. unfold fmap, Client_fmap, api.items.list_, read.
    reflexivity.
  - intros i Hi. rewrite (useQuery_refetches (useItem i)).
    + rewrite invalidate_each_data. reflexivity.
    + cbn. apply bool_decide_eq_true_2. exact Hi.
    + apply Hstale. exists [i]. reflexivity.
  - reflexivity.
Qed.

Lemma successful_mutation_invalidates_witness :
  let m := UpdateItem "2" (mkPartial None (Some "X") None None None) in
  (mutate m seedApp).1 = Fulfilled () ∧
  trace (mutate m seedApp).2
    = [MutationSettled true; Invalidated ["items"]; Invalidated ["items"; "2"]].
Proof.
  cbn zeta.
  pose proof (successful_mutation_invalidates
                (UpdateItem "2" (mkPartial None (Some "X") None None None)) seedApp eq_refl)
    as (Hout & _ & Htrace & _).
  split; [exact Hout|exact Htrace].
Defined.

(** C7: when the mutating function of an invocation rejects, the
    invocation rejects with the same error, the cached queries are left as
    they were, and the trace gains the failed settling and no
    invalidation. *)
Theorem failed_mutation_keeps_cache (m : Mutation) (a : App) (e : JsError) :
  (mutationFn_of m (mockItems a)).1 = Rejected e →
  (mutate m a).1 = Rejected e ∧
  queries (mutate m a).2 = queries a ∧
  trace (mutate m a).2 = trace a ++ [MutationSettled false] ∧
  (∀ key, Invalidated key ∉ drop (length (trace a)) (trace (mutate m a).2)).
Proof.
  intros Hfail. rewrite mutate_unfold.
  destruct (mutationFn_of m (mockItems a)) as [[[]|e'] items']; [discriminate|].
  cbn in Hfail. injection Hfail as ->. cbn [fst snd queries trace].
  split_and!; try reflexivity.
  intros key. rewrite drop_app_length. intros Hin.
  apply elem_of_cons in Hin as [Hin|Hin]; [discriminate|].
  apply elem_of_nil in Hin. destruct Hin.
Qed.

Lemma failed_mutation_keeps_cache_witness :
  let m := UpdateItem "nonexistent-id" (mkPartial None (Some "X") None None None) in
  (mutate m seedApp).1 = Rejected (Error "Item not found") ∧
  queries (mutate m seedApp).2 = queries seedApp ∧
  trace (mutate m seedApp).2 = trace seedApp ++ [MutationSettled false] ∧
  (∀ key, Invalidated key ∉ drop (length (trace seedApp)) (trace (mutate m seedApp).2)).
Proof.
  cbn zeta.
  apply (failed_mutation_keeps_cache
           (UpdateItem "nonexistent-id" (mkPartial None (Some "X") None None None)) seedApp).
  reflexivity.
Defined.

(** ** The creation form *)

Example submit_valid :
  let p' := submit (mkAmbient "0.4fzyo82mvyr" "t")
              (mkFormValues "Widget" "A useful widget" (Some active)) seedPage in
  name <$> mockItems (app p') = ["First Item"; "Second Item"; "Widget"] ∧
  location p' = "/items" ∧
  errors p' = no_errors ∧
  t_description <$> toasts p' = [Some "Widget has been created successfully"].
Proof. split_and!; reflexivity. Qed.

Example submit_two_characters :
  submit (mkAmbient "0.4fzyo82mvyr" "t")
         (mkFormValues "ab" "A useful widget" (Some active)) seedPage
  = {| app := seedApp;
       errors := {| e_name := Some "Name must be at least 3 characters";
                    e_description := None; e_status := None |};
       toasts := []; location := "/items/new" |}.
Proof. reflexivity. Qed.

Section form.
Implicit Types (v : FormValues) (p : Page).

Lemma short_name_rejected v :
  (String.length (f_name v) < 3)%nat →
  ∃ errs, createItemSchema v = inl errs ∧
          e_name errs = Some "Name must be at least 3 characters".
Proof.
  intros Hshort%Nat.ltb_lt.
  assert (Hname : z_string 3 "Name must be at least 3 characters"
                    50 "Name must be less than 50 characters" (f_name v)
                  = Some "Name must be at least 3 characters")
    by (unfold z_string; rewrite Hshort; reflexivity).
  unfold createItemSchema. cbv zeta. rewrite Hname.
  eexists. split; reflexivity.
Qed.

(** Whatever a creation through the hook is given, it leaves a longer
    trace behind. *)
Lemma create_is_traced env data a :
  (length (trace a) < length (trace (mutateAsync (useCreateItem env) data a).2))%nat.
Proof.
  apply mutateAsync_traced. intros r v' a'. cbn. rewrite length_app. lia.
Qed.

End form.

(** C8: a submission of the creation form whose name has fewer than 3
    characters is rejected by the schema with the message of the name
    field; the page shows that message; the collection, the cache and the
    trace are what they were, so no record was added and no creation was
    invoked (an invoked creation would have lengthened the trace); and the
    page neither shows a toast nor leaves its route. *)
Theorem short_name_blocks_submission (env : Ambient) (v : FormValues) (p : Page) :
  (String.length (f_name v) < 3)%nat →
  (∃ errs, createItemSchema v = inl errs ∧ errors (submit env v p) = errs) ∧
  e_name (errors (submit env v p)) = Some "Name must be at least 3 characters" ∧
  app (submit env v p) = app p ∧
  mockItems (app (submit env v p)) = mockItems (app p) ∧
  (∀ env' data, app (submit env v p) ≠ (mutateAsync (useCreateItem env') data (app p)).2) ∧
  toasts (submit env v p) = toasts p ∧
  location (submit env v p) = location p.
Proof.
  intros (errs & Hschema & Hname)%short_name_rejected.
  unfold submit, handleSubmit. rewrite Hschema. cbn.
  split_and!; try reflexivity.
  - exists errs. split; reflexivity.
  - exact Hname.
  - intros env' data Heq.
    pose proof (create_is_traced env' data (app p)) as Hlt.
    rewrite <- Heq in Hlt. lia.
Qed.

Lemma short_name_blocks_submission_witness :
  let env := mkAmbient "0.4fzyo82mvyr" "2024-01-01T00:00:00.000Z" in
  let v := mkFormValues "ab" "A useful widget" (Some active) in
  (String.length (f_name v) < 3)%nat ∧
  e_name (errors (submit env v seedPage)) = Some "Name must be at least 3 characters" ∧
  mockItems (app (submit env v seedPage)) = mockItems (app seedPage).
Proof.
  cbn zeta. split; [cbn; lia|].
  pose proof (short_name_blocks_submission
                (mkAmbient "0.4fzyo82mvyr" "2024-01-01T00:00:00.000Z")
                (mkFormValues "ab" "A useful widget" (Some active)) seedPage)
    as Hthm.
  destruct Hthm as (_ & Hname & _ & Hitems & _); [cbn; lia|].
  split; [exact Hname|exact Hitems].
Defined.

(** ** The resource client: how the operations compose *)

Section client_composition.
Implicit Types (items : list Item) (i j : string) (item : Item).

Lemma spread_twice item data : spread (spread item data) data = spread item data.
Proof.
  destruct data as [[?|] [?|] [?|] [?|] [?|]]; reflexivity.
Qed.

Lemma spread_keeps_id item data i :
  id item = i → p_id data = None ∨ p_id data = Some i → id (spread item data) = i.
Proof. intros Hid [Hn|Hs]; cbn; rewrite ?Hn, ?Hs; cbn; [exact Hid|reflexivity]. Qed.

(** After a write of a record with the same identifier at the position
    found, the search finds that position again. *)
Lemma find_after_insert i items index current new :
  list_find (λ item, id item = i) items = Some (index, current) →
  id new = i →
  list_find (λ item, id item = i) (<[index := new]> items) = Some (index, new).
Proof.
  intros (Hlook & _ & Hfirst)%list_find_Some Hnew.
  apply list_find_Some. split_and!.
  - apply list_lookup_insert_eq. eapply lookup_lt_Some; eassumption.
  - exact Hnew.
  - intros k y Hk Hlt. rewrite list_lookup_insert_ne in Hk by lia.
    eapply Hfirst; eassumption.
Qed.

(** A search for another identifier is blind to a write that keeps the
    identifier at the written position. *)
Lemma find_other_after_insert i j items index current new :
  items !! index = Some current → id current = i → id new = i → j ≠ i →
  fmap snd (list_find (λ item, id item = j) (<[index := new]> items))
  = fmap snd (list_find (λ item, id item = j) items).
Proof.
  intros Hlook Hcur Hnew Hne.
  destruct (list_find (λ item, id item = j) items) as [[k found]|] eqn:Hfind.
  - apply list_find_Some in Hfind as (Hk & Hid & Hfirst).
    assert (Hki : k ≠ index) by (intros ->; congruence).
    assert (Hfind' : list_find (λ item, id item = j) (<[index := new]> items) = Some (k, found)).
    { apply list_find_Some. split_and!.
      - rewrite list_lookup_insert_ne by congruence. exact Hk.
      - exact Hid.
      - intros k' y Hk' Hlt. destruct (decide (k' = index)) as [->|Hne'].
        + rewrite list_lookup_insert_eq in Hk' by (eapply lookup_lt_Some; eassumption).
          injection Hk' as <-. congruence.
        + rewrite list_lookup_insert_ne in Hk' by congruence.
          eapply Hfirst; eassumption. }
    rewrite Hfind'. reflexivity.
  - assert (Hfind' : list_find (λ item, id item = j) (<[index := new]> items) = None).
    { apply list_find_None, Forall_forall. intros y Hy.
      apply list_elem_of_lookup in Hy as [k' Hk'].
      destruct (decide (k' = index)) as [->|Hne'].
      - rewrite list_lookup_insert_eq in Hk' by (eapply lookup_lt_Some; eassumption).
        injection Hk' as <-. congruence.
      - rewrite list_lookup_insert_ne in Hk' by congruence.
        apply (proj1 (find_absent j items) Hfind y).
        eapply list_elem_of_lookup_2; eassumption. }
    rewrite Hfind'. reflexivity.
Qed.

Lemma get_result i items :
  (api.items.get i items).1 =
    match list_find (λ item, id item = i) items with
    | Some (_, item) => Fulfilled item
    | None => Rejected not_found
    end.
Proof. rewrite get_unfold. destruct (list_find _ items) as [[? ?]|]; reflexivity. Qed.

Lemma get_result_snd i items items' :
  fmap snd (list_find (λ item, id item = i) items')
  = fmap snd (list_find (λ item, id item = i) items) →
  (api.items.get i items').1 = (api.items.get i items).1.
Proof.
  rewrite !get_result.
  destruct (list_find _ items') as [[? ?]|], (list_find _ items) as [[? ?]|];
    cbn; intros [=]; subst; reflexivity.
Qed.

Lemma NoDup_ids_filter (P : Item → Prop) `{!∀ item, Decision (P item)} items :
  NoDup (ids items) → NoDup (ids (filter P items)).
Proof.
  unfold ids. induction items as [|item items IH]; [intros; constructor|].
  rewrite fmap_cons. intros [Hnotin Hrest]%NoDup_cons. rewrite filter_cons.
  destruct (decide (P item)); [|auto].
  rewrite fmap_cons. apply NoDup_cons. split; [|auto].
  intros (y & Hy & Hin%list_elem_of_filter)%list_elem_of_fmap.
  apply Hnotin. apply list_elem_of_fmap. exists y. tauto.
Qed.

Lemma filter_same_iff i items :
  filter (λ item, id item ≠ i) items = items ↔ i ∉ ids items.
Proof.
  rewrite <- absent_ids. split.
  - intros Hsame item Hin. rewrite <- Hsame in Hin.
    apply list_elem_of_filter in Hin. tauto.
  - apply filter_absent.
Qed.

End client_composition.

(** X1: a fulfilled [update] keeps the length of the collection and
    rewrites one position only, that of the first record with the
    identifier given; the records at all other positions, later records
    with the same identifier included, are the ones of before. *)
Theorem update_rewrites_one_position
    (items : list Item) (i : string) (data : PartialItem) (new : Item) (items' : list Item) :
  api.items.update i data items = (Fulfilled new, items') →
  length items' = length items ∧
  ∃ index old,
    items !! index = Some old ∧ id old = i ∧
    (∀ k earlier, items !! k = Some earlier → k < index → id earlier ≠ i) ∧
    new = spread old data ∧
    items' !! index = Some new ∧
    ∀ k, k ≠ index → items' !! k = items !! k.
Proof.
  intros (index & old & Hfind & -> & -> & Hstored)%update_returns_stored.
  split; [apply length_insert|].
  apply list_find_Some in Hfind as (Hlook & Hid & Hfirst).
  exists index, old. split_and!; try assumption; try reflexivity.
  intros k Hk. apply list_lookup_insert_ne. congruence.
Qed.

Lemma update_rewrites_one_position_witness :
  let data := mkPartial None None None (Some active) None in
  let items := seedItems "t" "t" ++ seedItems "u" "u" in
  length (api.items.update "2" data items).2 = length items ∧
  status <$> (api.items.update "2" data items).2 = [active; active; active; inactive].
Proof.
  cbn zeta. split; [|reflexivity].
  exact (proj1 (update_rewrites_one_position
                  (seedItems "t" "t" ++ seedItems "u" "u") "2"
                  (mkPartial None None None (Some active) None)
                  (mkItem "2" "Second Item" "Another sample item" active "t")
                  (api.items.update "2" (mkPartial None None None (Some active) None)
                     (seedItems "t" "t" ++ seedItems "u" "u")).2
                  eq_refl)).
Defined.

(** X2: an [update] that does not rename the record is idempotent:
    running it again on its own result answers the same and leaves the
    same collection, whether the identifier is present or not. *)
Theorem update_idempotent (items : list Item) (i : string) (data : PartialItem) :
  p_id data = None ∨ p_id data = Some i →
  api.items.update i data (api.items.update i data items).2
  = api.items.update i data items.
Proof.
  intros Hid. rewrite (update_unfold i data items).
  destruct (list_find _ items) as [[index current]|] eqn:Hfind; cbn [snd].
  - pose proof Hfind as (_ & Hcur & _)%list_find_Some.
    rewrite update_unfold.
    rewrite (find_after_insert i items index current (spread current data) Hfind
               (spread_keeps_id _ _ _ Hcur Hid)).
    rewrite spread_twice, list_insert_insert_eq. reflexivity.
  - rewrite update_unfold, Hfind. reflexivity.
Qed.

Lemma update_idempotent_witness :
  let data := mkPartial None (Some "X") None None None in
  api.items.update "2" data (api.items.update "2" data (seedItems "t" "t")).2
  = api.items.update "2" data (seedItems "t" "t").
Proof.
  cbn zeta. apply update_idempotent. left. reflexivity.
Defined.

(** X3: distinct identifiers are kept distinct by a [create] whose drawn
    identifier is not in use, by an [update] that does not rename the
    record, and by every [delete]. *)
Theorem distinct_identifiers_preserved (items : list Item) :
  NoDup (ids items) →
  (∀ env data, substring_from 7 (random36 env) ∉ ids items →
     NoDup (ids (api.items.create env data items).2)) ∧
  (∀ i data, p_id data = None ∨ p_id data = Some i →
     ids (api.items.update i data items).2 = ids items) ∧
  (∀ i, NoDup (ids (api.items.delete i items).2)).
Proof.
  intros Hnodup. split_and!.
  - intros env data Hfresh. rewrite create_unfold. cbn [snd]. unfold ids in *.
    rewrite fmap_app. apply NoDup_app. split_and!.
    + exact Hnodup.
    + intros x Hx Hin. cbn in Hin. apply list_elem_of_singleton in Hin. subst x.
      exact (Hfresh Hx).
    + cbn. apply NoDup_singleton.
  - intros i data Hid. rewrite update_unfold.
    destruct (list_find _ items) as [[index current]|] eqn:Hfind; [|reflexivity].
    apply list_find_Some in Hfind as (Hlook & Hcur & _).
    cbn [snd]. unfold ids. rewrite list_fmap_insert.
    rewrite (spread_keeps_id _ _ _ Hcur Hid).
    apply list_insert_id. rewrite list_lookup_fmap, Hlook. cbn. congruence.
  - intros i. rewrite delete_unfold. cbn [snd]. apply NoDup_ids_filter. exact Hnodup.
Qed.

Lemma distinct_identifiers_preserved_witness :
  NoDup (ids (api.items.create (mkAmbient "0.4fzyo82mvyr" "t")
                (mkNewItem "Widget" "A widget" active) (seedItems "t" "t")).2).
Proof.
  assert (Hseed : NoDup (ids (seedItems "t" "t"))).
  { cbn. apply NoDup_cons. split; [|apply NoDup_singleton].
    intros Hin%list_elem_of_singleton. discriminate. }
  apply (proj1 (distinct_identifiers_preserved (seedItems "t" "t") Hseed)).
  cbn. intros Hin. apply elem_of_cons in Hin as [Hin|Hin]; [discriminate|].
  apply list_elem_of_singleton in Hin. discriminate.
Defined.

Section client_lookups.
Implicit Types (items : list Item) (i j : string) (item : Item).

(** Removing records that a search would skip anyway does not change
    what it finds. *)
Lemma find_in_filter i j items :
  j ≠ i →
  fmap snd (list_find (λ item, id item = j) (filter (λ item, id item ≠ i) items))
  = fmap snd (list_find (λ item, id item = j) items).
Proof.
  intros Hne. induction items as [|item items IH]; [reflexivity|].
  rewrite filter_cons. destruct (decide (id item ≠ i)) as [Hkeep|Hdrop].
  - cbn. destruct (decide (id item = j)); [reflexivity|].
    destruct (list_find _ (filter _ items)) as [[? ?]|],
             (list_find _ items) as [[? ?]|]; cbn in *; congruence.
  - cbn. destruct (decide (id item = j)) as [Hj|_].
    + exfalso. apply Hdrop. intros Heq. apply Hne. rewrite <- Hj. exact Heq.
    + rewrite IH. destruct (list_find _ items) as [[? ?]|]; reflexivity.
Qed.

Lemma find_in_app i items item :
  fmap snd (list_find (λ item, id item = i) (items ++ [item]))
  = match list_find (λ item, id item = i) items with
    | Some (_, found) => Some found
    | None => if decide (id item = i) then Some item else None
    end.
Proof.
  destruct (list_find (λ item, id item = i) items) as [[k found]|] eqn:Hfind.
  - rewrite (list_find_app_l _ _ _ _ _ Hfind). reflexivity.
  - rewrite (list_find_app_r _ _ _ Hfind). cbn.
    destruct (decide (id item = i)); reflexivity.
Qed.

End client_lookups.

(** X4: deleting the identifier of a record just created removes that
    record together with every older record of the same identifier; the
    collection of before the creation comes back exactly when the drawn
    identifier was not in use. *)
Theorem create_then_delete (env : Ambient) (data : NewItem) (items : list Item) :
  (api.items.delete (substring_from 7 (random36 env))
     (api.items.create env data items).2).2
  = filter (λ item, id item ≠ substring_from 7 (random36 env)) items ∧
  ((api.items.delete (substring_from 7 (random36 env))
      (api.items.create env data items).2).2 = items
   ↔ substring_from 7 (random36 env) ∉ ids items).
Proof.
  rewrite create_unfold, delete_unfold. cbn [snd]. rewrite filter_app.
  rewrite (filter_cons_False _ _ []) by (cbn; intros Hne; apply Hne; reflexivity).
  rewrite filter_nil, app_nil_r. split; [reflexivity|apply filter_same_iff].
Qed.

(** X5: a creation does not change what [get] answers for an identifier
    that was present; for an absent one, [get] finds the new record when
    it carries that identifier.  So when the drawn identifier is already
    in use, every [get] answers as before the creation: the new record
    is shadowed by the older one. *)
Theorem create_keeps_lookups (env : Ambient) (data : NewItem) (items : list Item) :
  ∃ newItem,
    (api.items.create env data items).1 = Fulfilled newItem ∧
    (∀ i, (api.items.get i (api.items.create env data items).2).1
          = match (api.items.get i items).1 with
            | Fulfilled found => Fulfilled found
            | Rejected e => if decide (id newItem = i) then Fulfilled newItem else Rejected e
            end) ∧
    (id newItem ∈ ids items →
     ∀ i, (api.items.get i (api.items.create env data items).2).1
          = (api.items.get i items).1).
Proof.
  rewrite create_unfold. cbn zeta. eexists. split; [reflexivity|]. cbn [snd fst].
  set (newItem := {| id := substring_from 7 (random36 env) |}).
  assert (Hget : ∀ i, (api.items.get i (items ++ [newItem])).1
          = match (api.items.get i items).1 with
            | Fulfilled found => Fulfilled found
            | Rejected e => if decide (id newItem = i) then Fulfilled newItem else Rejected e
            end).
  { intros i. rewrite !get_result.
    pose proof (find_in_app i items newItem) as Hfind.
    destruct (list_find _ (items ++ [newItem])) as [[? ?]|],
             (list_find _ items) as [[? ?]|];
      try destruct (decide (id newItem = i)); cbn in Hfind; congruence. }
  split; [exact Hget|].
  intros Hused i. rewrite Hget, get_result.
  destruct (list_find _ items) as [[? ?]|] eqn:Hfind; [reflexivity|].
  destruct (decide (id newItem = i)) as [<-|]; [|reflexivity].
  exfalso. apply (proj1 (absent_ids (id newItem) items)); [|exact Hused].
  apply find_absent. exact Hfind.
Qed.

(** X6: a [delete] does not change what [get] answers for any other
    identifier. *)
Theorem delete_keeps_other_lookups (items : list Item) (i j : string) :
  j ≠ i →
  (api.items.get j (api.items.delete i items).2).1 = (api.items.get j items).1.
Proof.
  intros Hne. rewrite delete_unfold. cbn [snd].
  apply get_result_snd, find_in_filter. exact Hne.
Qed.

Lemma delete_keeps_other_lookups_witness :
  (api.items.get "2" (api.items.delete "1" (seedItems "t" "t")).2).1
  = (api.items.get "2" (seedItems "t" "t")).1.
Proof. apply delete_keeps_other_lookups. discriminate. Defined.

(** X7: two deletions commute: the collection left does not depend on
    the order in which two identifiers are deleted. *)
Theorem delete_commutes (items : list Item) (i j : string) :
  (api.items.delete j (api.items.delete i items).2).2
  = (api.items.delete i (api.items.delete j items).2).2.
Proof.
  rewrite !delete_unfold. cbn [snd]. rewrite !list_filter_filter.
  apply list_filter_iff. intros item. tauto.
Qed.

(** X8: an [update] that does not rename the record does not change what
    [get] answers for any other identifier. *)
Theorem update_keeps_other_lookups
    (items : list Item) (i j : string) (data : PartialItem) :
  p_id data = None ∨ p_id data = Some i →
  j ≠ i →
  (api.items.get j (api.items.update i data items).2).1 = (api.items.get j items).1.
Proof.
  intros Hid Hne. rewrite update_unfold.
  destruct (list_find (λ item, id item = i) items) as [[index current]|] eqn:Hfind;
    [|reflexivity].
  apply list_find_Some in Hfind as (Hlook & Hcur & _). cbn [snd].
  apply get_result_snd.
  apply (find_other_after_insert i j items index current); try assumption.
  apply spread_keeps_id; assumption.
Qed.

Lemma update_keeps_other_lookups_witness :
  (api.items.get "1"
     (api.items.update "2" (mkPartial None (Some "X") None None None) (seedItems "t" "t")).2).1
  = (api.items.get "1" (seedItems "t" "t")).1.
Proof. apply update_keeps_other_lookups; [left; reflexivity|discriminate]. Defined.

(** ** The validation schema and the two pages *)

Section schema.
Implicit Types (v : FormValues) (s : string).

Lemma z_string_None lo lo_message hi hi_message s :
  z_string lo lo_message hi hi_message s = None
  ↔ (lo ≤ String.length s ∧ String.length s ≤ hi)%nat.
Proof.
  unfold z_string.
  destruct (Nat.ltb_spec (String.length s) lo), (Nat.ltb_spec hi (String.length s));
    split; try discriminate; try reflexivity; lia.
Qed.

Lemma z_string_lo lo lo_message hi hi_message s :
  lo_message ≠ hi_message →
  z_string lo lo_message hi hi_message s = Some lo_message
  ↔ (String.length s < lo)%nat.
Proof.
  intros Hne. unfold z_string.
  destruct (Nat.ltb_spec (String.length s) lo), (Nat.ltb_spec hi (String.length s));
    split; try discriminate; try reflexivity; try lia; congruence.
Qed.

Lemma z_string_hi lo lo_message hi hi_message s :
  lo_message ≠ hi_message → (lo ≤ hi)%nat →
  z_string lo lo_message hi hi_message s = Some hi_message
  ↔ (hi < String.length s)%nat.
Proof.
  intros Hne Hle. unfold z_string.
  destruct (Nat.ltb_spec (String.length s) lo), (Nat.ltb_spec hi (String.length s));
    split; try discriminate; try reflexivity; try lia; congruence.
Qed.

(** The errors the schema computes for the three fields, whether or not
    the form is rejected. *)
Lemma createItemSchema_cases v :
  let name_error :=
    z_string 3 "Name must be at least 3 characters"
             50 "Name must be less than 50 characters" (f_name v) in
  let description_error :=
    z_string 10 "Description must be at least 10 characters"
             200 "Description must be less than 200 characters" (f_description v) in
  match createItemSchema v with
  | inr data =>
      name_error = None ∧ description_error = None ∧
      f_status v = Some (n_status data) ∧
      n_name data = f_name v ∧ n_description data = f_description v
  | inl errs =>
      errs = {| e_name := name_error; e_description := description_error;
                e_status := z_enum "Please select a status" (f_status v) |} ∧
      (name_error ≠ None ∨ description_error ≠ None ∨ f_status v = None)
  end.
Proof.
  cbv zeta. unfold createItemSchema.
  destruct (z_string 3 _ 50 _ (f_name v)) as [m1|];
    destruct (z_string 10 _ 200 _ (f_description v)) as [m2|];
    destruct (f_status v) as [st|]; cbn; split_and?; try reflexivity;
    auto; try (left; discriminate); right; left; discriminate.
Qed.

End schema.

(** X9: the schema accepts a form exactly when the name has 3 to 50
    units, the description 10 to 200, both bounds included, and a status
    is chosen; the accepted data are the values of the form, unchanged
    (nothing is trimmed). *)
Theorem schema_accepts_exactly (v : FormValues) (data : NewItem) :
  createItemSchema v = inr data ↔
    (3 ≤ String.length (f_name v) ∧ String.length (f_name v) ≤ 50)%nat ∧
    (10 ≤ String.length (f_description v) ∧ String.length (f_description v) ≤ 200)%nat ∧
    f_status v = Some (n_status data) ∧
    n_name data = f_name v ∧
    n_description data = f_description v.
Proof.
  pose proof (createItemSchema_cases v) as Hcases. cbv zeta in Hcases.
  rewrite <- !z_string_None. split.
  - intros Hacc. rewrite Hacc in Hcases. exact Hcases.
  - intros (Hn & Hd & Hst & Hname & Hdesc).
    destruct (createItemSchema v) as [errs|data'].
    + destruct Hcases as (_ & [H|[H|H]]); congruence.
    + destruct Hcases as (_ & _ & Hst' & Hname' & Hdesc').
      f_equal. destruct data, data'; cbn in *. congruence.
Qed.

(** X10: a rejected form gets, for each field on its own, the message of
    the check that fails and no message when the field is valid, and at
    least one field has a message.  A name of exactly 50 units is valid,
    although the message of the upper bound reads "less than 50". *)
Theorem schema_reports_every_field (v : FormValues) (errs : FieldErrors) :
  createItemSchema v = inl errs →
  (e_name errs = Some "Name must be at least 3 characters"
     ↔ (String.length (f_name v) < 3)%nat) ∧
  (e_name errs = Some "Name must be less than 50 characters"
     ↔ (50 < String.length (f_name v))%nat) ∧
  (e_name errs = None
     ↔ (3 ≤ String.length (f_name v) ∧ String.length (f_name v) ≤ 50)%nat) ∧
  (e_description errs = Some "Description must be at least 10 characters"
     ↔ (String.length (f_description v) < 10)%nat) ∧
  (e_description errs = Some "Description must be less than 200 characters"
     ↔ (200 < String.length (f_description v))%nat) ∧
  (e_description errs = None
     ↔ (10 ≤ String.length (f_description v) ∧ String.length (f_description v) ≤ 200)%nat) ∧
  (e_status errs = Some "Please select a status" ↔ f_status v = None) ∧
  (e_status errs = None ↔ is_Some (f_status v)) ∧
  errs ≠ no_errors.
Proof.
  intros Hrej. pose proof (createItemSchema_cases v) as Hcases. cbv zeta in Hcases.
  rewrite Hrej in Hcases. destruct Hcases as (-> & Hsome). cbn [e_name e_description e_status].
  split_and!.
  - apply z_string_lo. discriminate.
  - apply z_string_hi; [discriminate|lia].
  - apply z_string_None.
  - apply z_string_lo. discriminate.
  - apply z_string_hi; [discriminate|lia].
  - apply z_string_None.
  - destruct (f_status v); cbn; split; congruence.
  - destruct (f_status v); cbn; split; try discriminate; try reflexivity; eauto.
    intros [? [=]].
  - unfold no_errors. intros [= Hn Hd Hs].
    destruct Hsome as [H|[H|H]]; [congruence|congruence|].
    rewrite H in Hs. discriminate.
Qed.

Lemma schema_reports_every_field_witness :
  let v := mkFormValues "ab" "too short" None in
  ∃ errs, createItemSchema v = inl errs ∧
    e_name errs = Some "Name must be at least 3 characters" ∧
    e_description errs = Some "Description must be at least 10 characters" ∧
    e_status errs = Some "Please select a status".
Proof.
  cbn zeta. eexists. split; [reflexivity|].
  pose proof (schema_reports_every_field (mkFormValues "ab" "too short" None) _ eq_refl)
    as (Hn & _ & _ & Hd & _ & _ & Hs & _).
  split_and!; [apply Hn; cbn; lia|apply Hd; cbn; lia|apply Hs; reflexivity].
Defined.

Example delete_flow :
  let p := mkItemsPageState seedApp
             (Some (mkItem "1" "First Item" "This is a sample item" active "t")) [] in
  let p' := ItemsPage.handleDelete p in
  ids (mockItems (ip_app p')) = ["2"] ∧
  ItemsPage.modalOpen p' = false ∧
  t_description <$> ip_toasts p' = [Some "First Item has been removed"].
Proof. split_and!; reflexivity. Qed.

(** X11: a form the schema accepts is always created: the collection
    gains one record with the values of the form, the identifier drawn
    and the stamp of the clock; the field errors are cleared; the one
    toast added is the success toast naming the record; the route becomes
    [/items]; and the collection key is invalidated after the creation has
    settled.  The error branch of the handler is never taken. *)
Theorem valid_submission_creates
    (env : Ambient) (v : FormValues) (p : Page) (data : NewItem) :
  createItemSchema v = inr data →
  mockItems (app (submit env v p))
    = mockItems (app p)
      ++ [ {| id := substring_from 7 (random36 env);
              name := f_name v;
              description := f_description v;
              status := n_status data;
              createdAt := nowISO env |} ] ∧
  errors (submit env v p) = no_errors ∧
  toasts (submit env v p)
    = toasts p ++ [ {| title := "Item created";
                       t_description := Some (f_name v +:+ " has been created successfully");
                       variant := v_success |} ] ∧
  location (submit env v p) = "/items" ∧
  trace (app (submit env v p))
    = trace (app p) ++ [MutationSettled true; Invalidated ITEMS_QUERY_KEY] ∧
  queries (app (submit env v p))
    = queries (invalidateQueries ITEMS_QUERY_KEY (app p)).
Proof.
  intros Hacc.
  pose proof (createItemSchema_cases v) as Hcases. cbv zeta in Hcases.
  rewrite Hacc in Hcases. destruct Hcases as (_ & _ & _ & Hname & Hdesc).
  unfold submit, handleSubmit. rewrite Hacc.
  unfold onSubmit, mutateAsync. cbn [mutationFn useCreateItem].
  rewrite create_unfold. cbn -[invalidateQueries substring_from].
  rewrite Hname, Hdesc. split_and!; try reflexivity.
  cbn. rewrite <- app_assoc. reflexivity.
Qed.

Lemma valid_submission_creates_witness :
  let env := mkAmbient "0.4fzyo82mvyr" "2024-01-01T00:00:00.000Z" in
  let v := mkFormValues "Widget" "A useful widget" (Some active) in
  location (submit env v seedPage) = "/items" ∧
  errors (submit env v seedPage) = no_errors.
Proof.
  cbn zeta.
  pose proof (valid_submission_creates
                (mkAmbient "0.4fzyo82mvyr" "2024-01-01T00:00:00.000Z")
                (mkFormValues "Widget" "A useful widget" (Some active)) seedPage
                (mkNewItem "Widget" "A useful widget" active) eq_refl)
    as (_ & Herr & _ & Hloc & _).
  split; [exact Hloc|exact Herr].
Defined.

(** The delete handler on a page with a picked record, step by step. *)
Lemma handleDelete_picked (p : ItemsPageState) (picked : Item) :
  itemToDelete p = Some picked →
  ItemsPage.handleDelete p
  = {| ip_app :=
         invalidateQueries ITEMS_QUERY_KEY
           {| mockItems := filter (λ item, id item ≠ id picked) (mockItems (ip_app p));
              queries := queries (ip_app p);
              trace := trace (ip_app p) ++ [MutationSettled true] |};
       itemToDelete := None;
       ip_toasts :=
         ip_toasts p ++ [ {| title := "Item deleted";
                             t_description := Some (name picked +:+ " has been removed");
                             variant := v_success |} ] |}.
Proof.
  intros Hpicked. unfold ItemsPage.handleDelete. rewrite Hpicked.
  unfold mutateAsync. cbn [mutationFn useDeleteItem].
  rewrite delete_unfold. reflexivity.
Qed.

(** X12: confirming the deletion of a picked record removes every record
    of the collection that has its identifier and keeps the others in
    order; the dialog closes; the one toast added is the success toast
    naming the picked record, whether or not a record was removed; and the
    collection key is invalidated after the deletion has settled.  The
    error branch of the handler is never taken. *)
Theorem handleDelete_removes_picked (p : ItemsPageState) (picked : Item) :
  itemToDelete p = Some picked →
  mockItems (ip_app (ItemsPage.handleDelete p))
    = filter (λ item, id item ≠ id picked) (mockItems (ip_app p)) ∧
  itemToDelete (ItemsPage.handleDelete p) = None ∧
  ItemsPage.modalOpen (ItemsPage.handleDelete p) = false ∧
  ip_toasts (ItemsPage.handleDelete p)
    = ip_toasts p ++ [ {| title := "Item deleted";
                          t_description := Some (name picked +:+ " has been removed");
                          variant := v_success |} ] ∧
  trace (ip_app (ItemsPage.handleDelete p))
    = trace (ip_app p) ++ [MutationSettled true; Invalidated ITEMS_QUERY_KEY] ∧
  queries (ip_app (ItemsPage.handleDelete p))
    = queries (invalidateQueries ITEMS_QUERY_KEY (ip_app p)).
Proof.
  intros Hpicked. rewrite (handleDelete_picked p picked Hpicked).
  split_and!; try reflexivity.
  cbn. rewrite <- app_assoc. reflexivity.
Qed.

Lemma handleDelete_removes_picked_witness :
  let picked := mkItem "1" "First Item" "This is a sample item" active "t" in
  let p := mkItemsPageState seedApp (Some picked) [] in
  ids (mockItems (ip_app (ItemsPage.handleDelete p))) = ["2"] ∧
  itemToDelete (ItemsPage.handleDelete p) = None.
Proof.
  cbn zeta.
  pose proof (handleDelete_removes_picked
                (mkItemsPageState seedApp
                   (Some (mkItem "1" "First Item" "This is a sample item" active "t")) [])
                _ eq_refl) as (Hitems & Hnone & _).
  split; [rewrite Hitems; reflexivity|exact Hnone].
Defined.

(** X13: the delete handler is idempotent on every state of the page:
    without a picked record it does nothing, and after a confirmed
    deletion no record is picked any more, so a second run changes
    neither the collection, the cache, the trace nor the toasts. *)
Theorem handleDelete_idempotent (p : ItemsPageState) :
  (itemToDelete p = None → ItemsPage.handleDelete p = p) ∧
  ItemsPage.handleDelete (ItemsPage.handleDelete p) = ItemsPage.handleDelete p.
Proof.
  split.
  - intros Hnone. unfold ItemsPage.handleDelete. rewrite Hnone. reflexivity.
  - destruct (itemToDelete p) as [picked|] eqn:Hpicked.
    + rewrite (handleDelete_picked p picked Hpicked). reflexivity.
    + unfold ItemsPage.handleDelete. rewrite Hpicked. cbn. rewrite Hpicked. reflexivity.
Qed.

(** ** The toast list *)

Example toast_default_variant :
  te_variant <$> ToastProvider.toast "0.4fzyo82mvyr" (mkToastProps "Saved" None None) []
  = [v_default].
Proof. reflexivity. Qed.

(** X14: removing the identifier of a toast just shown removes that
    toast together with every earlier toast of the same identifier; the
    earlier list comes back exactly when the drawn identifier was not in
    use.  Removing an identifier that no toast has changes nothing, and
    a removal keeps the other toasts in their order. *)
Theorem toast_then_removeToast
    (draw : string) (props : ToastProps) (toasts : list ToastEntry) (i : string) :
  ToastProvider.removeToast (substring_from 7 draw) (ToastProvider.toast draw props toasts)
    = ToastProvider.removeToast (substring_from 7 draw) toasts ∧
  (ToastProvider.removeToast (substring_from 7 draw) (ToastProvider.toast draw props toasts)
     = toasts
   ↔ ∀ t, t ∈ toasts → te_id t ≠ substring_from 7 draw) ∧
  ((∀ t, t ∈ toasts → te_id t ≠ i) → ToastProvider.removeToast i toasts = toasts) ∧
  ToastProvider.removeToast i toasts `sublist_of` toasts ∧
  (∀ t, t ∈ ToastProvider.removeToast i toasts ↔ t ∈ toasts ∧ te_id t ≠ i).
Proof.
  assert (Hsame : ∀ k (l : list ToastEntry),
            (∀ t, t ∈ l → te_id t ≠ k) → ToastProvider.removeToast k l = l).
  { intros k l. unfold ToastProvider.removeToast.
    induction l as [|t l IH]; intros H; [reflexivity|].
    rewrite filter_cons_True by (apply H; left).
    f_equal. apply IH. intros t' Hin. apply H. right. exact Hin. }
  assert (Hstep : ToastProvider.removeToast (substring_from 7 draw)
                    (ToastProvider.toast draw props toasts)
                  = ToastProvider.removeToast (substring_from 7 draw) toasts).
  { unfold ToastProvider.removeToast, ToastProvider.toast. rewrite filter_app.
    rewrite (filter_cons_False _ _ []) by (cbn; intros Hne; apply Hne; reflexivity).
    rewrite filter_nil, app_nil_r. reflexivity. }
  split_and!.
  - exact Hstep.
  - rewrite Hstep. split; [|apply Hsame].
    intros Heq t Hin. rewrite <- Heq in Hin.
    apply list_elem_of_filter in Hin. tauto.
  - apply Hsame.
  - apply sublist_filter.
  - intros t. unfold ToastProvider.removeToast. rewrite list_elem_of_filter. tauto.
Qed.

(** ** String helpers *)

Example capitalize_status :
  capitalize (status_text active) = "Active" ∧
  capitalize (status_text inactive) = "Inactive" ∧
  capitalize "" = "".
Proof. split_and!; reflexivity. Qed.

Lemma toUpperCase_unit_twice (c : ascii) :
  toUpperCase_unit (toUpperCase_unit c) = toUpperCase_unit c.
Proof.
  destruct c as [[] [] [] [] [] [] [] []]; vm_compute; reflexivity.
Qed.

Lemma toUpperCase_unit_simple (c : ascii) :
  simple_upper (toUpperCase_unit c) = simple_upper c.
Proof.
  destruct c as [[] [] [] [] [] [] [] []]; vm_compute; reflexivity.
Qed.

Lemma capitalize_cons (c : ascii) (rest : string) :
  capitalize (String c rest) = String (toUpperCase_unit c) rest.
Proof. reflexivity. Qed.

(** X15: on a string whose first unit has a one-unit upper case,
    [capitalize] keeps the length, changes nothing after the first unit,
    gives a string of the same kind, and is idempotent; the empty string
    stays empty. *)
Theorem capitalize_first_unit_only (str : string) :
  first_simple str = true →
  String.length (capitalize str) = String.length str ∧
  substring_from 1 (capitalize str) = substring_from 1 str ∧
  charAt 0 (capitalize str) = toUpperCase (charAt 0 str) ∧
  first_simple (capitalize str) = true ∧
  capitalize (capitalize str) = capitalize str ∧
  (capitalize str = "" ↔ str = "").
Proof.
  destruct str as [|c rest]; intros Hsimple.
  - split_and!; reflexivity.
  - rewrite !capitalize_cons. split_and!; try reflexivity.
    + cbn [first_simple] in *. rewrite toUpperCase_unit_simple. exact Hsimple.
    + rewrite toUpperCase_unit_twice. reflexivity.
    + split; discriminate.
Qed.

Lemma capitalize_first_unit_only_witness :
  String.length (capitalize "inactive") = String.length "inactive" ∧
  capitalize (capitalize "inactive") = capitalize "inactive".
Proof.
  pose proof (capitalize_first_unit_only "inactive" eq_refl) as (Hlen & _ & _ & _ & Hidem & _).
  split; [exact Hlen|exact Hidem].
Defined.

(** ** The UI store: sequences of actions *)

(** X16: after [n] toggles the sidebar flag is the one of before when [n]
    is even and its negation when [n] is odd, and the other entries of
    the store are the ones of before; from the initial state the sidebar
    is open exactly after an even number of toggles. *)
Theorem toggles_follow_parity (n : nat) (state : UIState) :
  Nat.iter n useUIStore.toggleSidebar state
    = {| sidebarOpen := if Nat.even n then sidebarOpen state else negb (sidebarOpen state);
         toggleSidebar_field := toggleSidebar_field state;
         setSidebarOpen_field := setSidebarOpen_field state |} ∧
  sidebarOpen (Nat.iter n useUIStore.toggleSidebar useUIStore.initial) = Nat.even n.
Proof.
  assert (Hiter : ∀ s,
    Nat.iter n useUIStore.toggleSidebar s
    = {| sidebarOpen := if Nat.even n then sidebarOpen s else negb (sidebarOpen s);
         toggleSidebar_field := toggleSidebar_field s;
         setSidebarOpen_field := setSidebarOpen_field s |}).
  { intros s. induction n as [|n IH].
    - destruct s; reflexivity.
    - rewrite Nat.iter_succ, IH, Nat.even_succ, <- Nat.negb_even.
      unfold useUIStore.toggleSidebar, set_. cbn.
      destruct (Nat.even n); cbn; rewrite ?negb_involutive; reflexivity. }
  split; [apply Hiter|].
  rewrite Hiter. cbn. destruct (Nat.even n); reflexivity.
Qed.

(** X17: [setSidebarOpen] forgets the flag it finds: set after set, or
    set after toggle, is the last set alone; and a toggle after a set is
    the set of the negated value. *)
Theorem setSidebarOpen_absorbs (open open' : bool) (state : UIState) :
  useUIStore.setSidebarOpen open (useUIStore.setSidebarOpen open' state)
    = useUIStore.setSidebarOpen open state ∧
  useUIStore.setSidebarOpen open (useUIStore.toggleSidebar state)
    = useUIStore.setSidebarOpen open state ∧
  useUIStore.toggleSidebar (useUIStore.setSidebarOpen open state)
    = useUIStore.setSidebarOpen (negb open) state ∧
  (useUIStore.setSidebarOpen open state = state ↔ sidebarOpen state = open).
Proof.
  destruct state as [flag t s]. split_and!; try reflexivity.
  unfold useUIStore.setSidebarOpen, set_. cbn. split; [intros [= ->]|intros ->]; reflexivity.
Qed.

(** ** The query hooks: the disabled query *)

(** X18: the record query of the empty identifier is disabled, so a read
    through it never calls the client and changes nothing: it shows what
    the cache holds under its key.  On a cache without that entry it
    shows no data, even when the collection has a record with the empty
    identifier, as [create] can produce. *)
Theorem empty_identifier_is_never_fetched (a : App) :
  useQuery (useItem "") a = (result_of (queries a !! queryKey (useItem "")), a) ∧
  (queries a !! queryKey (useItem "") = None →
   (useQuery (useItem "") a).1 = {| r_data := None; r_error := None |}) ∧
  ∃ env data,
    is_random36 (random36 env) = true ∧
    is_fulfilled (api.items.get "" (api.items.create env data (mockItems a)).2).1 = true.
Proof.
  split_and!.
  - reflexivity.
  - intros Hmiss.
    change (useQuery (useItem "") a)
      with (result_of (queries a !! queryKey (useItem "")), a).
    rewrite Hmiss. reflexivity.
  - exists (mkAmbient "0.i" ""), (mkNewItem "" "" active). split; [reflexivity|].
    rewrite create_unfold. cbn [snd]. rewrite get_result.
    match goal with |- context [list_find ?P (?l ++ [?x])] =>
      pose proof (find_in_app "" l x) as Hfind;
      destruct (list_find P (l ++ [x])) as [[? ?]|] end; [reflexivity|].
    exfalso. destruct (list_find _ (mockItems a)) as [[? ?]|]; discriminate.
Qed.

(** ** The resource client: counting records *)

(** X19: in a collection with distinct identifiers, a [delete] of a
    present identifier removes exactly one record, and the identifier is
    then absent. *)
Theorem delete_removes_exactly_one (items : list Item) (i : string) :
  NoDup (ids items) → i ∈ ids items →
  S (length (api.items.delete i items).2) = length items ∧
  i ∉ ids (api.items.delete i items).2.
Proof.
  rewrite delete_unfold. cbn [snd]. intros Hnodup Hin. split.
  - unfold ids in *. induction items as [|item items IH].
    + apply elem_of_nil in Hin. destruct Hin.
    + rewrite fmap_cons in Hnodup, Hin. apply NoDup_cons in Hnodup as [Hnotin Hrest].
      rewrite filter_cons. destruct (decide (id item ≠ i)) as [Hne|Heq].
      * apply elem_of_cons in Hin as [Hin|Hin]; [congruence|].
        cbn. f_equal. apply IH; assumption.
      * assert (Hid : id item = i) by (destruct (decide (id item = i)); [assumption|tauto]).
        subst i. rewrite filter_absent; [reflexivity|].
        apply absent_ids. exact Hnotin.
  - apply absent_ids. intros item Hitem. apply list_elem_of_filter in Hitem. tauto.
Qed.

Lemma delete_removes_exactly_one_witness :
  S (length (api.items.delete "1" (seedItems "t" "t")).2) = length (seedItems "t" "t") ∧
  "1" ∉ ids (api.items.delete "1" (seedItems "t" "t")).2.
Proof.
  apply delete_removes_exactly_one.
  - cbn. apply NoDup_cons. split; [|apply NoDup_singleton].
    intros Hin%list_elem_of_singleton. discriminate.
  - cbn. left.
Defined.
